(** * A shallow embedding of [pkg/trie]: the IP prefix trie of trie-network

    The Go package keeps one binary trie keyed on the bits of an IP
    address.  [Insert] walks the bits of a CIDR's network number and marks
    the node it reaches, [Find] and [FindAll] walk the bits of an address and
    report the marked nodes they pass, [Delete] unmarks a node and prunes the
    branch that led to it.

    The file has three layers:
    - [Net]: the part of Go's standard [net] package that the trie calls
      ([ParseIP], [ParseCIDR], [IP.To4], [IP.To16], [IP.Mask], [CIDRMask],
      [IPMask.Size], [IPNet.Contains]);
    - [Trie]: the four operations, written loop by loop as in the source,
      with a run-time panic (slice index out of range) as an outcome of its
      own;
    - the path view of a trie ([descend], [reg], [matches]) and the theorems:
      first the ones for the specification's claims (C1 to C10), then further
      properties of the four operations (X1 to X16). *)

From Stdlib Require Import ZArith Lia.
From stdpp Require Import base list option strings gmap sorting.

Open Scope Z_scope.

(** ** Go's [net] package, as far as the trie uses it *)

Module Net.

(** A Go [[]byte]: every element is a [uint8] carried in [Z]. *)
Abbreviation bytes := (list Z) (only parsing).

Definition IPv4len : nat := 4.
Definition IPv6len : nat := 16.

Definition v4InV6Prefix : bytes := [0; 0; 0; 0; 0; 0; 0; 0; 0; 0; 255; 255].

(** [netip.Addr]: an IPv4 address (the text was a dotted quad) or an IPv6
    address (the text was colon-hex, an IPv4-mapped [::ffff:a.b.c.d]
    included). *)
Inductive Addr :=
| Addr4 (a b c d : Z)
| Addr6 (b0 b1 b2 b3 b4 b5 b6 b7 b8 b9 b10 b11 b12 b13 b14 b15 : Z).

Definition AddrFrom4 (l : bytes) : option Addr :=
  match l with
  | [a; b; c; d] => Some (Addr4 a b c d)
  | _ => None
  end.

Definition AddrFrom16 (l : bytes) : option Addr :=
  match l with
  | [b0; b1; b2; b3; b4; b5; b6; b7; b8; b9; b10; b11; b12; b13; b14; b15] =>
      Some (Addr6 b0 b1 b2 b3 b4 b5 b6 b7 b8 b9 b10 b11 b12 b13 b14 b15)
  | _ => None
  end.

Definition BitLen (a : Addr) : Z :=
  match a with
  | Addr4 _ _ _ _ => 32
  | Addr6 _ _ _ _ _ _ _ _ _ _ _ _ _ _ _ _ => 128
  end.

(** [Addr.As16]: the sixteen bytes; an IPv4 address in its IPv4-mapped
    form. *)
Definition As16 (a : Addr) : bytes :=
  match a with
  | Addr4 a b c d => v4InV6Prefix ++ [a; b; c; d]
  | Addr6 b0 b1 b2 b3 b4 b5 b6 b7 b8 b9 b10 b11 b12 b13 b14 b15 =>
      [b0; b1; b2; b3; b4; b5; b6; b7; b8; b9; b10; b11; b12; b13; b14; b15]
  end.

(** *** Text *)

Definition chars (s : string) : list Z :=
  map (fun c => Z.of_N (Ascii.N_of_ascii c)) (String.list_ascii_of_string s).

Definition is_digit (c : Z) : bool := (48 <=? c) && (c <=? 57).

Definition hex_val (c : Z) : option Z :=
  if (48 <=? c) && (c <=? 57) then Some (c - 48)
  else if (97 <=? c) && (c <=? 102) then Some (c - 97 + 10)
  else if (65 <=? c) && (c <=? 70) then Some (c - 65 + 10)
  else None.

(** [split_on sep s]: the fields of [s] between occurrences of [sep]. *)
Fixpoint split_on (sep : Z) (s : list Z) : list (list Z) :=
  match s with
  | [] => [[]]
  | c :: s' =>
      if c =? sep then [] :: split_on sep s'
      else match split_on sep s' with
           | f :: fs => (c :: f) :: fs
           | [] => [[c]]
           end
  end.

(** One octet of a dotted quad: decimal digits only, at least one, no
    leading zero, value at most 255. *)
Fixpoint octet_digits (s : list Z) (digLen : nat) (val : Z) : option Z :=
  match s with
  | [] => match digLen with O => None | _ => Some val end
  | c :: s' =>
      if is_digit c then
        if (Nat.eqb digLen 1) && (val =? 0) then None
        else
          let val' := val * 10 + (c - 48) in
          if 255 <? val' then None else octet_digits s' (S digLen) val'
      else None
  end.

Definition parseIPv4Fields (s : list Z) : option bytes :=
  match split_on 46 s with
  | [f0; f1; f2; f3] =>
      a ← octet_digits f0 0 0; b ← octet_digits f1 0 0;
      c ← octet_digits f2 0 0; d ← octet_digits f3 0 0;
      Some [a; b; c; d]
  | _ => None
  end.

Definition parseIPv4 (s : list Z) : option Addr :=
  parseIPv4Fields s ≫= AddrFrom4.

(** One colon-separated group: up to four hex digits; a fifth is an
    error.  Returns the value, the number of digits and the rest. *)
Fixpoint hex_group (s : list Z) (off : nat) (acc : Z)
  : option (Z * nat * list Z) :=
  match s with
  | [] => Some (acc, off, [])
  | c :: s' =>
      match hex_val c with
      | Some v => if (3 <? off)%nat then None
                  else hex_group s' (S off) (acc * 16 + v)
      | None => Some (acc, off, s)
      end
  end.

(** The group loop of [netip.parseIPv6].  [ip] holds the bytes written so
    far (the loop index [i] is its length), [ellipsis] the byte position
    of [::] if it was seen.  The result is the bytes, the ellipsis and the
    unread text. *)
Fixpoint v6_groups (fuel : nat) (s : list Z) (ip : bytes)
         (ellipsis : option nat) : option (bytes * option nat * list Z) :=
  match fuel with
  | O => Some (ip, ellipsis, s)
  | S fuel' =>
      if (16 <=? length ip)%nat then Some (ip, ellipsis, s)
      else
        match hex_group s 0 0 with
        | None => None
        | Some (_, O, _) => None
        | Some (acc, _, rest) =>
            match rest with
            | 46 :: _ =>
                if (bool_decide (ellipsis = None)
                    && negb (Nat.eqb (length ip) 12))
                   || (16 <? length ip + 4)%nat
                then None
                else
                  v4 ← parseIPv4Fields s;
                  Some (ip ++ v4, ellipsis, [])
            | _ =>
                let ip' := ip ++ [Z.shiftr acc 8; Z.land acc 255] in
                match rest with
                | [] => Some (ip', ellipsis, [])
                | c :: rest' =>
                    if negb (c =? 58) then None
                    else
                      match rest' with
                      | [] => None
                      | 58 :: rest'' =>
                          match ellipsis with
                          | Some _ => None
                          | None =>
                              match rest'' with
                              | [] => Some (ip', Some (length ip'), [])
                              | _ => v6_groups fuel' rest'' ip'
                                               (Some (length ip'))
                              end
                          end
                      | _ => v6_groups fuel' rest' ip' ellipsis
                      end
                end
            end
        end
  end.

Definition parseIPv6 (s : list Z) : option Addr :=
  let start :=
    match s with
    | 58 :: 58 :: s' => (s', Some 0%nat)
    | _ => (s, None)
    end in
  match start with
  | ([], Some _) => AddrFrom16 (replicate 16 0)
  | (s0, e0) =>
      '(ip, ellipsis, rest) ← v6_groups 9 s0 [] e0;
      match rest with
      | _ :: _ => None
      | [] =>
          if (length ip <? 16)%nat then
            match ellipsis with
            | None => None
            | Some e =>
                AddrFrom16 (take e ip
                              ++ replicate (16 - length ip)%nat 0
                              ++ drop e ip)
            end
          else
            match ellipsis with
            | Some _ => None
            | None => AddrFrom16 ip
            end
      end
  end.

(** [netip.ParseAddr], for text without a zone: the first of [.] and [:]
    decides the family; [net.ParseIP] and [net.ParseCIDR] reject every
    text that holds a [%]. *)
Fixpoint parse_dispatch (whole s : list Z) : option Addr :=
  match s with
  | [] => None
  | c :: s' =>
      if c =? 46 then parseIPv4 whole
      else if c =? 58 then parseIPv6 whole
      else if c =? 37 then None
      else parse_dispatch whole s'
  end.

Definition ParseAddr (s : list Z) : option Addr :=
  if bool_decide (37 ∈ s) then None else parse_dispatch s s.

(** [net.ParseIP]: always the 16-byte form. *)
Definition ParseIP (s : string) : option bytes :=
  As16 <$> ParseAddr (chars s).

(** *** Masks *)

Fixpoint mask_bytes (l : nat) (n : Z) : bytes :=
  match l with
  | O => []
  | S l' =>
      if 8 <=? n then 255 :: mask_bytes l' (n - 8)
      else Z.land (Z.lnot (Z.shiftr 255 n)) 255 :: mask_bytes l' 0
  end.

Definition CIDRMask (ones bits : Z) : option bytes :=
  if negb (bits =? 32) && negb (bits =? 128) then None
  else if (ones <? 0) || (bits <? ones) then None
  else Some (mask_bytes (Z.to_nat (bits / 8)) ones).

Definition allFF (b : bytes) : bool := forallb (Z.eqb 255) b.
Definition isZeros (b : bytes) : bool := forallb (Z.eqb 0) b.

(** [IP.Mask]; [None] is Go's [nil]. *)
Definition Mask (ip mask : bytes) : option bytes :=
  let mask :=
    if Nat.eqb (length mask) IPv6len && Nat.eqb (length ip) IPv4len
       && allFF (take 12 mask)
    then drop 12 mask else mask in
  let ip :=
    if Nat.eqb (length mask) IPv4len && Nat.eqb (length ip) IPv6len
       && bool_decide (take 12 ip = v4InV6Prefix)
    then drop 12 ip else ip in
  if Nat.eqb (length ip) (length mask)
  then Some (zip_with Z.land ip mask) else None.

(** [IP.To4]: a 4-byte slice as it is, the last four bytes of a 16-byte
    IPv4-mapped address, [nil] otherwise. *)
Definition To4 (ip : bytes) : option bytes :=
  if Nat.eqb (length ip) IPv4len then Some ip
  else if Nat.eqb (length ip) IPv6len && isZeros (take 10 ip)
          && (default 0 (ip !! 10%nat) =? 255)
          && (default 0 (ip !! 11%nat) =? 255)
  then Some (take 4 (drop 12 ip))
  else None.

Definition To16 (ip : bytes) : option bytes :=
  if Nat.eqb (length ip) IPv4len then Some (v4InV6Prefix ++ ip)
  else if Nat.eqb (length ip) IPv6len then Some ip
  else None.

(** [simpleMaskLength]: the number of leading one bits, [-1] when the
    mask is not a run of ones followed by zeros. *)
Fixpoint leading_ones (fuel : nat) (v : Z) : Z * Z :=
  match fuel with
  | O => (0, v)
  | S fuel' =>
      if Z.land v 128 =? 0 then (0, v)
      else let '(n, v') := leading_ones fuel' (Z.land (Z.shiftl v 1) 255) in
           (n + 1, v')
  end.

Fixpoint simpleMaskLength (mask : bytes) : Z :=
  match mask with
  | [] => 0
  | v :: rest =>
      if v =? 255 then
        match simpleMaskLength rest with
        | -1 => -1
        | n => n + 8
        end
      else
        let '(n, v') := leading_ones 8 v in
        if negb (v' =? 0) then -1
        else if isZeros rest then n else -1
  end.

(** [IPMask.Size]. *)
Definition Size (mask : bytes) : Z * Z :=
  let ones := simpleMaskLength mask in
  if ones =? -1 then (0, 0) else (ones, Z.of_nat (length mask) * 8).

Record IPNet := mkIPNet { IP : bytes; IPMask : bytes }.

(** [dtoi]: a decimal number at the start of [s], with the number of
    characters it took. *)
Fixpoint dtoi_from (s : list Z) (n : Z) (i : nat) : option (Z * nat) :=
  match s with
  | c :: s' =>
      if is_digit c then
        let n' := n * 10 + (c - 48) in
        if 16777215 <=? n' then None else dtoi_from s' n' (S i)
      else match i with O => None | _ => Some (n, i) end
  | [] => match i with O => None | _ => Some (n, i) end
  end.

Definition dtoi (s : list Z) : option (Z * nat) := dtoi_from s 0 0.

(** The text before and after the first [/]. *)
Fixpoint cut_slash (s : list Z) : option (list Z * list Z) :=
  match s with
  | [] => None
  | c :: s' =>
      if c =? 47 then Some ([], s')
      else '(a, m) ← cut_slash s'; Some (c :: a, m)
  end.

(** [net.ParseCIDR]: the address and the network (number and mask). *)
Definition ParseCIDR (s : string) : option (bytes * IPNet) :=
  '(a, m) ← cut_slash (chars s);
  ipAddr ← ParseAddr a;
  '(n, i) ← dtoi m;
  if negb (Nat.eqb i (length m)) || (n <? 0) || (BitLen ipAddr <? n)
  then None
  else
    mask ← CIDRMask n (BitLen ipAddr);
    ip ← Mask (As16 ipAddr) mask;
    Some (As16 ipAddr, mkIPNet ip mask).

Definition networkNumberAndMask (n : IPNet) : option (bytes * bytes) :=
  ip ← (match To4 (IP n) with
        | Some ip4 => Some ip4
        | None => if Nat.eqb (length (IP n)) IPv6len
                  then Some (IP n) else None
        end);
  let m := IPMask n in
  if Nat.eqb (length m) IPv4len then
    if Nat.eqb (length ip) IPv4len then Some (ip, m) else None
  else if Nat.eqb (length m) IPv6len then
    Some (ip, if Nat.eqb (length ip) IPv4len then drop 12 m else m)
  else None.

(** [IPNet.Contains]. *)
Definition Contains (n : IPNet) (ip : bytes) : bool :=
  match networkNumberAndMask n with
  | None => false
  | Some (nn, m) =>
      let ip := default ip (To4 ip) in
      Nat.eqb (length ip) (length nn)
      && bool_decide (zip_with Z.land nn m = zip_with Z.land ip m)
  end.

End Net.

Import Net.

(** ** The trie of [pkg/trie] *)

Module Trie.

(** Go's [interface{}] holds any value.  The trie stores the caller's map
    and hands it back without ever looking inside, so the kinds of values
    found in the repository's callers are enough here. *)
Inductive Value := VStr (s : string) | VList (l : list string).

(** [map[string]interface{}]. *)
Abbreviation Metadata := (gmap string Value) (only parsing).

(** [Node].  The Go field [children] is a [map[byte]*Node] whose keys are
    always the result of [... & 1]; the two slots [child0] and [child1] are
    the entries for the keys 0 and 1, [None] when the key is absent. *)
#[local] Unset Elimination Schemes.
Inductive Node := mkNode {
  child0 : option Node;
  child1 : option Node;
  isEnd : bool;
  metadata : gmap string Value;
  cidr : string
}.
#[local] Set Elimination Schemes.

Record IPTrie := mkIPTrie { root : Node }.

(** [&Node{children: make(map[byte]*Node), metadata: make(...)}]. *)
Definition newNode : Node := mkNode None None false ∅ "".

Definition NewIPTrie : IPTrie := mkIPTrie newNode.

(** [node.children[bit]]; [None] is Go's [nil]. *)
Definition children (node : Node) (bit : Z) : option Node :=
  if bit =? 0 then child0 node
  else if bit =? 1 then child1 node
  else None.

(** [node.children[bit] = c]. *)
Definition set_child (node : Node) (bit : Z) (c : Node) : Node :=
  if bit =? 0 then
    mkNode (Some c) (child1 node) (isEnd node) (metadata node) (cidr node)
  else if bit =? 1 then
    mkNode (child0 node) (Some c) (isEnd node) (metadata node) (cidr node)
  else node.

(** [delete(node.children, bit)]. *)
Definition del_child (node : Node) (bit : Z) : Node :=
  if bit =? 0 then
    mkNode None (child1 node) (isEnd node) (metadata node) (cidr node)
  else if bit =? 1 then
    mkNode (child0 node) None (isEnd node) (metadata node) (cidr node)
  else node.

(** [len(node.children)]. *)
Definition len_children (node : Node) : Z :=
  (match child0 node with Some _ => 1 | None => 0 end)
  + (match child1 node with Some _ => 1 | None => 0 end).

(** The three error values the package builds with [fmt.Errorf]. *)
Inductive error :=
| InvalidCIDR      (* "invalid CIDR: ..." *)
| InvalidIP        (* "invalid IP address" *)
| NoMatch          (* "no matching CIDR found" *)
| CIDRNotFound.    (* "CIDR not found" *)

(** What a call does: it returns a value, returns an error, or panics
    (here always: index out of range on [ipBytes]). *)
Inductive result (A : Type) :=
| Ok (a : A)
| Err (e : error)
| Panic.
Arguments Ok {A} a.
Arguments Err {A} e.
Arguments Panic {A}.

#[global] Instance result_ret : MRet result := fun A a => Ok a.
#[global] Instance result_bind : MBind result := fun A B f r =>
  match r with
  | Ok a => f a
  | Err e => Err e
  | Panic => Panic
  end.

(** [ipToBytes]: the 4-byte form when [To4] gives one, the 16-byte form
    otherwise.  A [nil] slice is the empty list. *)
Definition ipToBytes (ip : bytes) : bytes :=
  match To4 ip with
  | Some ip4 => ip4
  | None => default [] (To16 ip)
  end.

(** The three lines that every loop of the package repeats:
    [byteIndex := i / 8], [bitIndex := 7 - (i % 8)],
    [bit := (ipBytes[byteIndex] >> uint(bitIndex)) & 1].
    [None] is the panic of an index out of range. *)
Definition bit_at (ipBytes : bytes) (i : Z) : option Z :=
  let byteIndex := i / 8 in
  let bitIndex := 7 - i mod 8 in
  b ← ipBytes !! Z.to_nat byteIndex;
  Some (Z.land (Z.shiftr b bitIndex) 1).

(** [node.isEnd = true; node.cidr = cidr; node.metadata = metadata]. *)
Definition mark (node : Node) (c : string) (md : gmap string Value) : Node :=
  mkNode (child0 node) (child1 node) true md c.

(** [node.isEnd = false; node.metadata = make(...); node.cidr = ""]. *)
Definition unmark (node : Node) : Node :=
  mkNode (child0 node) (child1 node) false ∅ "".

(** One of the two [for] loops of [Insert]: [n] iterations from index [i],
    starting at [node]; [rest] is the code after the loop, run on the node
    the loop ends at.  The result is [node] as the heap holds it once
    [rest] is done: the child that the loop moved into is written back
    under its bit. *)
Fixpoint insert_loop (ipBytes : bytes) (n : nat) (i : Z) (node : Node)
         (rest : Node -> result Node) : result Node :=
  match n with
  | O => rest node
  | S n' =>
      match bit_at ipBytes i with
      | None => Panic
      | Some bit =>
          let child := default newNode (children node bit) in
          child' ← insert_loop ipBytes n' (i + 1) child rest;
          Ok (set_child node bit child')
      end
  end.

Definition Insert (t : IPTrie) (c : string) (md : gmap string Value)
  : result IPTrie :=
  match ParseCIDR c with
  | None => Err InvalidCIDR
  | Some (_, ipnet) =>
      let ipBytes := ipToBytes (IP ipnet) in
      let '(ones, total) := Size (IPMask ipnet) in
      let finish := fun node => Ok (mark node c md) in
      root' ← insert_loop ipBytes (Z.to_nat ones) 0 (root t)
                (fun node =>
                   if ones =? total
                   then insert_loop ipBytes (Z.to_nat (total - ones)) ones
                                    node finish
                   else finish node);
      Ok (mkIPTrie root')
  end.

(** The loop of [Find].  The result is the pair ([node], [lastMatch]) at
    the loop's exit; [node] is [None] after the [break]. *)
Fixpoint find_loop (ipBytes : bytes) (n : nat) (i : Z) (node : Node)
         (lastMatch : option Node) : result (option Node * option Node) :=
  match n with
  | O => Ok (Some node, lastMatch)
  | S n' =>
      let lastMatch := if isEnd node then Some node else lastMatch in
      match bit_at ipBytes i with
      | None => Panic
      | Some bit =>
          match children node bit with
          | None => Ok (None, lastMatch)
          | Some c => find_loop ipBytes n' (i + 1) c lastMatch
          end
      end
  end.

Definition Find (t : IPTrie) (ip : string)
  : result (string * gmap string Value) :=
  match ParseIP ip with
  | None => Err InvalidIP
  | Some parsedIP =>
      let ipBytes := ipToBytes parsedIP in
      let totalBits := Z.of_nat (length ipBytes) * 8 in
      '(node, lastMatch) ← find_loop ipBytes (Z.to_nat totalBits) 0
                                       (root t) None;
      let lastMatch :=
        match node with
        | Some nd => if isEnd nd then Some nd else lastMatch
        | None => lastMatch
        end in
      match lastMatch with
      | None => Err NoMatch
      | Some m => Ok (cidr m, metadata m)
      end
  end.

(** The loop of [FindAll]: ([node], [matches]) at the loop's exit. *)
Fixpoint findall_loop (ipBytes : bytes) (n : nat) (i : Z) (node : Node)
         (matches : list (string * gmap string Value))
  : result (option Node * list (string * gmap string Value)) :=
  match n with
  | O => Ok (Some node, matches)
  | S n' =>
      let matches :=
        if isEnd node then matches ++ [(cidr node, metadata node)]
        else matches in
      match bit_at ipBytes i with
      | None => Panic
      | Some bit =>
          match children node bit with
          | None => Ok (None, matches)
          | Some c => findall_loop ipBytes n' (i + 1) c matches
          end
      end
  end.

Definition FindAll (t : IPTrie) (ip : string)
  : result (list (string * gmap string Value)) :=
  match ParseIP ip with
  | None => Err InvalidIP
  | Some parsedIP =>
      let ipBytes := ipToBytes parsedIP in
      let totalBits := Z.of_nat (length ipBytes) * 8 in
      '(node, matches) ← findall_loop ipBytes (Z.to_nat totalBits) 0
                                        (root t) [];
      Ok (match node with
          | Some nd =>
              if isEnd nd then matches ++ [(cidr nd, metadata nd)]
              else matches
          | None => matches
          end)
  end.

(** The first loop of [Delete]: it collects the nodes of the path, each
    appended before the step into its child, and ends at the node the path
    leads to. *)
Fixpoint delete_walk (ipBytes : bytes) (n : nat) (i : Z) (node : Node)
         (nodes : list Node) : result (list Node * Node) :=
  match n with
  | O => Ok (nodes, node)
  | S n' =>
      match bit_at ipBytes i with
      | None => Panic
      | Some bit =>
          match children node bit with
          | None => Err CIDRNotFound
          | Some c => delete_walk ipBytes n' (i + 1) c (nodes ++ [node])
          end
      end
  end.

(** The second loop of [Delete], [for i := len(nodes) - 1; i >= 0; i--],
    entered with [k = i + 1].  [nodes] are the nodes as the first loop saw
    them; [child] is [nodes[i].children[bit]] as the heap holds it now,
    that is after the unmarking and after the iterations below [i].  The
    result is the root as the heap holds it after the loop. *)
Fixpoint cleanup (ipBytes : bytes) (nodes : list Node) (k : nat)
         (child : Node) : result Node :=
  match k with
  | O => Ok child
  | S i =>
      match nodes !! i with
      | None => Panic
      | Some parent =>
          match bit_at ipBytes (Z.of_nat i) with
          | None => Panic
          | Some bit =>
              cleanup ipBytes nodes i
                (if (len_children child =? 0) && negb (isEnd child)
                 then del_child parent bit
                 else set_child parent bit child)
          end
      end
  end.

Definition Delete (t : IPTrie) (c : string) : result IPTrie :=
  match ParseCIDR c with
  | None => Err InvalidCIDR
  | Some (_, ipnet) =>
      let ipBytes := ipToBytes (IP ipnet) in
      let '(ones, total) := Size (IPMask ipnet) in
      let totalBits :=
        if ones =? total then Z.of_nat (length ipBytes) * 8 else ones in
      '(nodes, node) ← delete_walk ipBytes (Z.to_nat totalBits) 0
                                     (root t) [];
      if negb (isEnd node) then Err CIDRNotFound
      else
        root' ← cleanup ipBytes nodes (length nodes) (unmark node);
        Ok (mkIPTrie root')
  end.

End Trie.

Import Trie.

(** ** The path view of a trie *)

(** The eight bits of a byte, most significant first. *)
Definition byte_bits (b : Z) : list Z :=
  (fun k => Z.land (Z.shiftr b k) 1) <$> [7; 6; 5; 4; 3; 2; 1; 0].

(** The bit sequence of a byte slice. *)
Definition bits_of (ipBytes : bytes) : list Z := ipBytes ≫= byte_bits.

Definition isbit (b : Z) : Prop := b = 0 \/ b = 1.

(** The bit sequence of a parsed address, as [Find] and [FindAll] walk it. *)
Definition addr_bits (parsedIP : bytes) : list Z :=
  bits_of (ipToBytes parsedIP).

(** The prefix length [ones] of a parsed CIDR. *)
Definition prefix_len (ipnet : IPNet) : nat := Z.to_nat (Size (IPMask ipnet)).1.

(** The bit sequence of a parsed CIDR: the first [ones] bits of its
    network number, as [Insert] walks them. *)
Definition cidr_bits (ipnet : IPNet) : list Z :=
  take (prefix_len ipnet) (bits_of (ipToBytes (IP ipnet))).

(** [Insert] can index [ipBytes] at every bit of the prefix. *)
Definition walkable (ipnet : IPNet) : Prop :=
  (prefix_len ipnet <= length (bits_of (ipToBytes (IP ipnet))))%nat.

(** The number of bits [Delete] walks ([totalBits]). *)
Definition delete_len (ipnet : IPNet) : nat :=
  let '(ones, total) := Size (IPMask ipnet) in
  Z.to_nat (if ones =? total
            then Z.of_nat (length (ipToBytes (IP ipnet))) * 8 else ones).

Definition delete_bits (ipnet : IPNet) : list Z :=
  take (delete_len ipnet) (bits_of (ipToBytes (IP ipnet))).

(** The node at the end of a bit path, if the path exists. *)
Fixpoint descend (node : Node) (p : list Z) : option Node :=
  match p with
  | [] => Some node
  | b :: p' => c ← children node b; descend c p'
  end.

(** What a registered node reports. *)
Definition entry (node : Node) : option (string * gmap string Value) :=
  if isEnd node then Some (cidr node, metadata node) else None.

(** The registration at a bit path: the CIDR text and metadata of the node
    there, when the node exists and is marked. *)
Definition reg (node : Node) (p : list Z)
  : option (string * gmap string Value) :=
  descend node p ≫= entry.

(** All prefixes of a bit sequence, shortest first. *)
Definition prefixes (bits : list Z) : list (list Z) :=
  (fun k => take k bits) <$> seq 0 (S (length bits)).

(** The registrations along a bit sequence, shortest prefix first. *)
Definition matches (node : Node) (bits : list Z)
  : list (string * gmap string Value) :=
  omap (reg node) (prefixes bits).

(** The same with the registration at one path left out. *)
Definition matches_without (p : list Z) (node : Node) (bits : list Z)
  : list (string * gmap string Value) :=
  omap (fun q => if decide (q = p) then None else reg node q) (prefixes bits).

(** The marked nodes that a walk from [node] along [p] passes. *)
Fixpoint visited (node : Node) (p : list Z) : list Node :=
  (if isEnd node then [node] else [])
  ++ match p with
     | [] => []
     | b :: p' =>
         match children node b with
         | Some c => visited c p'
         | None => []
         end
     end.

(** The nodes a walk along [p] steps out of. *)
Fixpoint path_nodes (node : Node) (p : list Z) : list Node :=
  match p with
  | [] => []
  | b :: p' =>
      node :: match children node b with
              | Some c => path_nodes c p'
              | None => []
              end
  end.

(** [Insert] as a recursion on the path. *)
Fixpoint insert_path (p : list Z) (node : Node) (c : string)
         (md : gmap string Value) : Node :=
  match p with
  | [] => mark node c md
  | b :: p' =>
      set_child node b
        (insert_path p' (default newNode (children node b)) c md)
  end.

(** A node that [Delete] detaches: no children and no registration. *)
Definition dead (node : Node) : bool :=
  (len_children node =? 0) && negb (isEnd node).

(** One iteration of the second loop of [Delete] on [parent]. *)
Definition reattach (parent : Node) (bit : Z) (child : Node) : Node :=
  if dead child then del_child parent bit else set_child parent bit child.

(** The root after the second loop of [Delete] has run up from depth
    [length q], where the node is now [child]. *)
Fixpoint graft (node : Node) (q : list Z) (child : Node) : Node :=
  match q with
  | [] => child
  | b :: q' =>
      reattach node b (graft (default newNode (children node b)) q' child)
  end.

(** [Delete] as a recursion on the path; [None] when the path is absent or
    its last node is not marked. *)
Fixpoint delete_path (p : list Z) (node : Node) : option Node :=
  match p with
  | [] => if isEnd node then Some (unmark node) else None
  | b :: p' =>
      c ← children node b;
      c' ← delete_path p' c;
      Some (reattach node b c')
  end.

(** The shape of every CIDR that [ParseCIDR] returns: an IPv4 network
    (4 bytes under a 32-bit mask) or an IPv6 network (16 bytes under a
    128-bit mask), the network number being the address under the mask. *)
Inductive parsed_cidr : IPNet -> Prop :=
| parsed_v4 a b c d n :
    0 <= n <= 32 ->
    parsed_cidr (mkIPNet (zip_with Z.land [a; b; c; d] (mask_bytes 4 n))
                         (mask_bytes 4 n))
| parsed_v6 (l : list Z) n :
    length l = 16%nat -> 0 <= n <= 128 ->
    parsed_cidr (mkIPNet (zip_with Z.land l (mask_bytes 16 n))
                         (mask_bytes 16 n)).

(** An IPv6-form network whose number is IPv4-mapped: the CIDRs that
    [ipToBytes] shortens to four bytes. *)
Definition mapped_cidr (ipnet : IPNet) : Prop :=
  length (IP ipnet) = 16%nat /\ is_Some (To4 (IP ipnet)).

(** *** The pruning invariant *)

(** [alive node]: neither [node] nor any node below it is dead. *)
Fixpoint alive (node : Node) : bool :=
  match node with
  | mkNode c0 c1 e _ _ =>
      negb (dead node)
      && match c0 with Some c => alive c | None => true end
      && match c1 with Some c => alive c | None => true end
  end.

(** No node below [node] is dead. *)
Definition alive_below (node : Node) : bool :=
  from_option alive true (child0 node) && from_option alive true (child1 node).

(** [clean node]: every unmarked node at or below [node] has the empty
    CIDR text and the empty metadata map, as [NewIPTrie] and [Insert] give
    them to the nodes they create and [Delete] to the node it unmarks. *)
Fixpoint clean (node : Node) : Prop :=
  match node with
  | mkNode c0 c1 e md s =>
      (e = false -> md = ∅ /\ s = "")
      /\ match c0 with Some c => clean c | None => True end
      /\ match c1 with Some c => clean c | None => True end
  end.

(** The number of nodes at and below [node]. *)
Fixpoint node_count (node : Node) : nat :=
  match node with
  | mkNode c0 c1 _ _ _ =>
      S (match c0 with Some c => node_count c | None => 0 end
         + match c1 with Some c => node_count c | None => 0 end)
  end.

(** *** Sequences of calls *)

Inductive op :=
| OpInsert (c : string) (md : gmap string Value)
| OpFind (ip : string)
| OpFindAll (ip : string)
| OpDelete (c : string).

(** The trie after a call that returned (with a value or an error);
    [None] when the call panicked.  Every error return of the package
    precedes the first write to the trie. *)
Definition run (t : IPTrie) (o : op) : option IPTrie :=
  match o with
  | OpInsert c md =>
      match Insert t c md with Ok t' => Some t' | Err _ => Some t | Panic => None end
  | OpFind ip =>
      match Find t ip with Panic => None | _ => Some t end
  | OpFindAll ip =>
      match FindAll t ip with Panic => None | _ => Some t end
  | OpDelete c =>
      match Delete t c with Ok t' => Some t' | Err _ => Some t | Panic => None end
  end.

Inductive reachable : IPTrie -> Prop :=
| reach_new : reachable NewIPTrie
| reach_run t o t' : reachable t -> run t o = Some t' -> reachable t'.

(** *** Example values *)

Definition md_wide : gmap string Value := {[ "scope" := VStr "wide" ]}.
Definition md_narrow : gmap string Value := {[ "scope" := VStr "narrow" ]}.

(** The trie a sequence of calls leaves, when none of them panics. *)
Definition after (ops : list op) : option IPTrie :=
  foldl (fun ot o => ot ≫= fun t => run t o) (Some NewIPTrie) ops.

Definition trie_of (ops : list op) : IPTrie := default NewIPTrie (after ops).

Definition ten_8 : string := "10.0.0.0/8".
Definition ten_1_16 : string := "10.1.0.0/16".

(** [10.0.0.0/8] and [10.1.0.0/16]. *)
Definition nested : IPTrie :=
  trie_of [OpInsert ten_8 md_wide; OpInsert ten_1_16 md_narrow].

(** [nested] after [Delete] of [10.1.0.0/16]. *)
Definition nested_deleted : IPTrie :=
  trie_of [OpInsert ten_8 md_wide; OpInsert ten_1_16 md_narrow;
           OpDelete ten_1_16].

(** A trie that holds one IPv4 prefix. *)
Definition only_ten_8 : IPTrie := trie_of [OpInsert ten_8 md_wide].

(** A trie that holds one IPv6 prefix whose first four bytes are 1.2.3.0. *)
Definition v6_0102_0300 : IPTrie := trie_of [OpInsert "102:300::/40" md_wide].

(** [192.168.0.0/16] then [192.168.1.0/24], as in [TestOverlappingRanges]. *)
Definition overlapping : IPTrie :=
  trie_of [OpInsert "192.168.0.0/16" md_wide;
           OpInsert "192.168.1.0/24" md_narrow].

(** * Theorems *)

(** ** Bits *)

Section Bits.

Lemma isbit_land (x : Z) : isbit (Z.land x 1).
Proof.
  change 1 with (Z.ones 1) at 1. rewrite Z.land_ones by lia.
  pose proof (Z.mod_pos_bound x (2 ^ 1) eq_refl). unfold isbit. lia.
Qed.

Lemma length_byte_bits (b : Z) : length (byte_bits b) = 8%nat.
Proof. reflexivity. Qed.

Lemma bits_of_cons (b : Z) (l : list Z) :
  bits_of (b :: l) = byte_bits b ++ bits_of l.
Proof. reflexivity. Qed.

Lemma length_bits_of (l : list Z) : length (bits_of l) = (8 * length l)%nat.
Proof.
  induction l as [|b l IH]; [reflexivity|].
  rewrite bits_of_cons, length_app, IH. simpl. lia.
Qed.

Lemma Forall_isbit_bits_of (l : list Z) : Forall isbit (bits_of l).
Proof.
  induction l as [|b l IH]; [constructor|].
  rewrite bits_of_cons. apply Forall_app. split; [|exact IH].
  unfold byte_bits. rewrite Forall_fmap. apply Forall_forall.
  intros k _. apply isbit_land.
Qed.

(** The bit that the loops compute at index [i] is the [i]-th element of the
    bit sequence, and the index runs out of range exactly at its end. *)
Lemma bit_at_lookup (l : list Z) (i : nat) :
  bit_at l (Z.of_nat i) = bits_of l !! i.
Proof.
  revert i. induction l as [|b l IH]; intros i.
  - unfold bit_at. rewrite lookup_nil. reflexivity.
  - rewrite bits_of_cons. destruct (decide (i < 8)%nat) as [Hlt|Hge].
    + rewrite lookup_app_l by (rewrite length_byte_bits; lia).
      do 8 (destruct i as [|i]; [reflexivity|]). lia.
    + rewrite lookup_app_r by (rewrite length_byte_bits; lia).
      rewrite length_byte_bits, <- IH.
      unfold bit_at.
      replace (Z.of_nat i) with (Z.of_nat (i - 8) + 1 * 8) by lia.
      rewrite Z.div_add, Z.mod_add by lia.
      replace (Z.to_nat (Z.of_nat (i - 8) / 8 + 1))
        with (S (Z.to_nat (Z.of_nat (i - 8) / 8))).
      * reflexivity.
      * pose proof (Z.div_pos (Z.of_nat (i - 8)) 8). lia.
Qed.

Lemma bit_at_Some (l : list Z) (i : nat) (b : Z) :
  bit_at l (Z.of_nat i) = Some b ->
  (i < length (bits_of l))%nat /\ drop i (bits_of l) = b :: drop (S i) (bits_of l).
Proof.
  rewrite bit_at_lookup. intros H. split.
  - eapply lookup_lt_Some; eauto.
  - apply drop_S. exact H.
Qed.

Lemma bit_at_None (l : list Z) (i : nat) :
  bit_at l (Z.of_nat i) = None -> (length (bits_of l) <= i)%nat.
Proof. rewrite bit_at_lookup. apply lookup_ge_None. Qed.

End Bits.

(** ** Nodes and their children maps *)

Section Nodes.

Implicit Types (node c : Node) (b : Z) (p q : list Z).

Lemma children_set_child node b c b' :
  isbit b ->
  children (set_child node b c) b'
  = if decide (b' = b) then Some c else children node b'.
Proof.
  intros [-> | ->]; unfold children, set_child; simpl;
    case_decide; subst; simpl; try reflexivity;
    destruct (b' =? 0) eqn:E0; try reflexivity; try lia;
    destruct (b' =? 1) eqn:E1; try reflexivity; lia.
Qed.

Lemma children_del_child node b b' :
  isbit b ->
  children (del_child node b) b'
  = if decide (b' = b) then None else children node b'.
Proof.
  intros [-> | ->]; unfold children, del_child; simpl;
    case_decide; subst; simpl; try reflexivity;
    destruct (b' =? 0) eqn:E0; try reflexivity; try lia;
    destruct (b' =? 1) eqn:E1; try reflexivity; lia.
Qed.

Lemma entry_set_child node b c : entry (set_child node b c) = entry node.
Proof.
  unfold entry, set_child.
  destruct (b =? 0); [reflexivity|]. destruct (b =? 1); reflexivity.
Qed.

Lemma entry_del_child node b : entry (del_child node b) = entry node.
Proof.
  unfold entry, del_child.
  destruct (b =? 0); [reflexivity|]. destruct (b =? 1); reflexivity.
Qed.

Lemma children_mark node s md b : children (mark node s md) b = children node b.
Proof. reflexivity. Qed.

Lemma children_unmark node b : children (unmark node) b = children node b.
Proof. reflexivity. Qed.

Lemma dead_children node b : dead node = true -> children node b = None.
Proof.
  unfold dead, len_children, children. intros H.
  apply andb_true_iff in H as [H _].
  destruct (child0 node), (child1 node); try discriminate;
    destruct (b =? 0); try reflexivity; destruct (b =? 1); reflexivity.
Qed.

Lemma dead_entry node : dead node = true -> entry node = None.
Proof.
  unfold dead, entry. intros H. apply andb_true_iff in H as [_ H].
  destruct (isEnd node); [discriminate | reflexivity].
Qed.

Lemma reattach_children parent b child b' :
  isbit b ->
  children (reattach parent b child) b'
  = if decide (b' = b) then (if dead child then None else Some child)
    else children parent b'.
Proof.
  intros Hb. unfold reattach. destruct (dead child).
  - apply children_del_child, Hb.
  - apply children_set_child, Hb.
Qed.

Lemma entry_reattach parent b child :
  entry (reattach parent b child) = entry parent.
Proof.
  unfold reattach. destruct (dead child);
    [apply entry_del_child | apply entry_set_child].
Qed.

(** *** Registrations *)

Lemma reg_nil node : reg node [] = entry node.
Proof. reflexivity. Qed.

Lemma reg_cons node b q :
  reg node (b :: q) = children node b ≫= fun c => reg c q.
Proof. unfold reg. simpl. destruct (children node b); reflexivity. Qed.

Lemma reg_dead node q : dead node = true -> reg node q = None.
Proof.
  intros H. destruct q as [|b q].
  - rewrite reg_nil. apply dead_entry, H.
  - rewrite reg_cons, (dead_children _ _ H). reflexivity.
Qed.

Lemma reg_newNode q : reg newNode q = None.
Proof. apply reg_dead. reflexivity. Qed.

(** [insert_path] registers its path and changes no other registration. *)
Lemma reg_insert_path p node s md q :
  Forall isbit p ->
  reg (insert_path p node s md) q
  = if decide (q = p) then Some (s, md) else reg node q.
Proof.
  intros Hp. revert node q.
  induction Hp as [|b p Hb Hp IH]; intros node q; simpl.
  - destruct q as [|b' q]; [reflexivity|].
    rewrite decide_False by discriminate.
    rewrite !reg_cons, children_mark. reflexivity.
  - destruct q as [|b' q].
    + rewrite decide_False by discriminate.
      rewrite !reg_nil. apply entry_set_child.
    + rewrite !reg_cons, children_set_child by exact Hb.
      destruct (decide (b' = b)) as [->|Hne].
      * simpl. rewrite IH.
        destruct (decide (q = p)) as [->|Hq].
        -- rewrite decide_True by reflexivity. reflexivity.
        -- rewrite decide_False by congruence.
           destruct (children node b); simpl; [reflexivity|].
           apply reg_newNode.
      * rewrite decide_False by congruence. reflexivity.
Qed.

(** [delete_path] fails exactly when its path is not registered. *)
Lemma delete_path_None p node :
  delete_path p node = None <-> reg node p = None.
Proof.
  revert node. induction p as [|b p IH]; intros node; simpl.
  - rewrite reg_nil. unfold entry. destruct (isEnd node); split; congruence.
  - rewrite reg_cons. destruct (children node b) as [c|]; simpl; [|tauto].
    rewrite <- IH. destruct (delete_path p c); simpl; split; congruence.
Qed.

(** [delete_path] removes the registration of its path and changes no
    other registration. *)
Lemma reg_delete_path p node node' q :
  Forall isbit p ->
  delete_path p node = Some node' ->
  reg node' q = if decide (q = p) then None else reg node q.
Proof.
  intros Hp. revert node node' q.
  induction Hp as [|b p Hb Hp IH]; intros node node' q; simpl.
  - destruct (isEnd node) eqn:E; [|discriminate]. intros [= <-].
    destruct q as [|b' q].
    + rewrite decide_True by reflexivity. reflexivity.
    + rewrite decide_False by discriminate.
      rewrite !reg_cons, children_unmark. reflexivity.
  - destruct (children node b) as [c|] eqn:Ec; simpl; [|discriminate].
    destruct (delete_path p c) as [c'|] eqn:Ed; simpl; [|discriminate].
    intros [= <-]. destruct q as [|b' q].
    + rewrite decide_False by discriminate.
      rewrite !reg_nil. apply entry_reattach.
    + rewrite !reg_cons, reattach_children by exact Hb.
      destruct (decide (b' = b)) as [->|Hne].
      * rewrite Ec. simpl. pose proof (IH _ _ q Ed) as Hq.
        destruct (dead c') eqn:Hdead.
        -- rewrite (reg_dead _ q Hdead) in Hq.
           destruct (decide (q = p)) as [->|Hne].
           ++ rewrite decide_True by reflexivity. reflexivity.
           ++ rewrite decide_False by congruence. simpl. congruence.
        -- simpl. rewrite Hq.
           destruct (decide (q = p)) as [->|Hne].
           ++ rewrite decide_True by reflexivity. reflexivity.
           ++ rewrite decide_False by congruence. reflexivity.
      * rewrite decide_False by congruence. reflexivity.
Qed.

End Nodes.

(** ** The loops of [Insert] *)

Section InsertLoops.

Variables (ipBytes : list Z) (s : string) (md : gmap string Value).

Lemma insert_loop_ext n i node rest1 rest2 :
  (forall nd, rest1 nd = rest2 nd) ->
  insert_loop ipBytes n i node rest1 = insert_loop ipBytes n i node rest2.
Proof.
  intros Hext. revert i node.
  induction n as [|n IH]; intros i node; simpl; [apply Hext|].
  destruct (bit_at ipBytes i); [|reflexivity]. rewrite IH. reflexivity.
Qed.

(** While the index stays inside [ipBytes], the loop followed by the
    marking is [insert_path] on the bits it read. *)
Lemma insert_loop_ok n (i : nat) node :
  (i + n <= length (bits_of ipBytes))%nat ->
  insert_loop ipBytes n (Z.of_nat i) node (fun nd => Ok (mark nd s md))
  = Ok (insert_path (take n (drop i (bits_of ipBytes))) node s md).
Proof.
  revert i node. induction n as [|n IH]; intros i node Hle; simpl.
  - reflexivity.
  - destruct (bit_at ipBytes (Z.of_nat i)) as [b|] eqn:Eb.
    + apply bit_at_Some in Eb as [_ ->]. simpl.
      replace (Z.of_nat i + 1) with (Z.of_nat (S i)) by lia.
      rewrite IH by lia. reflexivity.
    + apply bit_at_None in Eb. lia.
Qed.

(** A loop that runs past the end of [ipBytes] panics. *)
Lemma insert_loop_panic n (i : nat) node rest :
  (0 < n)%nat -> (length (bits_of ipBytes) < i + n)%nat ->
  insert_loop ipBytes n (Z.of_nat i) node rest = Panic.
Proof.
  revert i node. induction n as [|n IH]; intros i node Hpos Hgt; [lia|].
  simpl. destruct (bit_at ipBytes (Z.of_nat i)) as [b|] eqn:Eb; [|reflexivity].
  apply bit_at_Some in Eb as [Hlt _].
  replace (Z.of_nat i + 1) with (Z.of_nat (S i)) by lia.
  rewrite IH by lia. reflexivity.
Qed.

End InsertLoops.

(** The loop that [Insert] enters when [ones == total] has an empty range:
    the code after the first loop is the marking alone. *)
Lemma Insert_second_loop ipBytes ones total s md nd :
  (if ones =? total
   then insert_loop ipBytes (Z.to_nat (total - ones)) ones nd
                    (fun node => Ok (mark node s md))
   else Ok (mark nd s md))
  = Ok (mark nd s md).
Proof.
  destruct (ones =? total) eqn:E; [|reflexivity].
  apply Z.eqb_eq in E. subst. rewrite Z.sub_diag. reflexivity.
Qed.

(** [Insert], call by call: a parse error, a panic when the prefix is
    longer than the bits of [ipBytes], and [insert_path] otherwise. *)
Lemma Insert_unfold t s md :
  Insert t s md
  = match ParseCIDR s with
    | None => Err InvalidCIDR
    | Some (_, ipnet) =>
        if decide (walkable ipnet)
        then Ok (mkIPTrie (insert_path (cidr_bits ipnet) (root t) s md))
        else Panic
    end.
Proof.
  unfold Insert, walkable, cidr_bits, prefix_len.
  destruct (ParseCIDR s) as [[ip0 ipnet]|]; [|reflexivity].
  destruct (Size (IPMask ipnet)) as [ones total]. simpl.
  rewrite (insert_loop_ext _ _ _ _ _ (fun nd => Ok (mark nd s md)))
    by (intros nd; apply Insert_second_loop).
  change 0 with (Z.of_nat 0). case_decide as Hw.
  - rewrite insert_loop_ok by (simpl; lia). reflexivity.
  - rewrite insert_loop_panic by (simpl; lia). reflexivity.
Qed.

(** ** The loops of [Find] and [FindAll] *)

Section FindLoops.

Variable ipBytes : list Z.

Lemma find_loop_spec n (i : nat) node lastMatch :
  (i + n <= length (bits_of ipBytes))%nat ->
  exists r,
    find_loop ipBytes n (Z.of_nat i) node lastMatch = Ok r
    /\ match r.1 with
       | Some nd => if isEnd nd then Some nd else r.2
       | None => r.2
       end
       = from_option Some lastMatch
           (last (visited node (take n (drop i (bits_of ipBytes))))).
Proof.
  revert i node lastMatch.
  induction n as [|n IH]; intros i node lastMatch Hle; simpl.
  - eexists; split; [reflexivity|]. simpl.
    destruct (isEnd node); reflexivity.
  - destruct (bit_at ipBytes (Z.of_nat i)) as [b|] eqn:Eb.
    2:{ apply bit_at_None in Eb. lia. }
    apply bit_at_Some in Eb as [_ ->]. simpl.
    destruct (children node b) as [c|].
    + replace (Z.of_nat i + 1) with (Z.of_nat (S i)) by lia.
      destruct (IH (S i) c (if isEnd node then Some node else lastMatch))
        as (r & Hr & Hpost); [lia|].
      exists r. split; [exact Hr|]. rewrite Hpost.
      destruct (isEnd node); simpl; [|reflexivity].
      rewrite last_cons. destruct (last (visited c _)); reflexivity.
    + eexists; split; [reflexivity|]. simpl.
      destruct (isEnd node); reflexivity.
Qed.

Lemma findall_loop_spec n (i : nat) node ms :
  (i + n <= length (bits_of ipBytes))%nat ->
  exists r,
    findall_loop ipBytes n (Z.of_nat i) node ms = Ok r
    /\ match r.1 with
       | Some nd =>
           if isEnd nd then r.2 ++ [(cidr nd, metadata nd)] else r.2
       | None => r.2
       end
       = ms ++ ((fun nd => (cidr nd, metadata nd))
                  <$> visited node (take n (drop i (bits_of ipBytes)))).
Proof.
  revert i node ms.
  induction n as [|n IH]; intros i node ms Hle; simpl.
  - eexists; split; [reflexivity|]. simpl.
    destruct (isEnd node); simpl; [reflexivity | by rewrite app_nil_r].
  - destruct (bit_at ipBytes (Z.of_nat i)) as [b|] eqn:Eb.
    2:{ apply bit_at_None in Eb. lia. }
    apply bit_at_Some in Eb as [_ ->]. simpl.
    destruct (children node b) as [c|].
    + replace (Z.of_nat i + 1) with (Z.of_nat (S i)) by lia.
      destruct (IH (S i) c
                  (if isEnd node then ms ++ [(cidr node, metadata node)]
                   else ms)) as (r & Hr & Hpost); [lia|].
      exists r. split; [exact Hr|]. rewrite Hpost.
      destruct (isEnd node); simpl; [|reflexivity].
      rewrite <- app_assoc. reflexivity.
    + eexists; split; [reflexivity|]. simpl.
      destruct (isEnd node); simpl; [reflexivity | by rewrite app_nil_r].
Qed.

End FindLoops.

(** ** Prefixes and matches *)

Section Matches.

Implicit Types (node : Node) (bits p q : list Z).

Lemma prefixes_nil : prefixes [] = [[]].
Proof. reflexivity. Qed.

Lemma prefixes_cons b bits :
  prefixes (b :: bits) = [] :: (cons b <$> prefixes bits).
Proof.
  unfold prefixes. simpl length.
  change (seq 0 (S (S (length bits)))) with (0%nat :: seq 1 (S (length bits))).
  rewrite <- fmap_S_seq, fmap_cons, <- !list_fmap_compose. reflexivity.
Qed.

Lemma length_prefixes bits : length (prefixes bits) = S (length bits).
Proof. unfold prefixes. by rewrite length_fmap, length_seq. Qed.

Lemma prefixes_lookup bits (k : nat) :
  (k <= length bits)%nat -> prefixes bits !! k = Some (take k bits).
Proof.
  intros Hk. unfold prefixes.
  rewrite list_lookup_fmap, lookup_seq_lt by lia. reflexivity.
Qed.

Lemma prefixes_lookup_inv bits (k : nat) p :
  prefixes bits !! k = Some p -> p = take k bits /\ (k <= length bits)%nat.
Proof.
  intros H. assert (k < length (prefixes bits))%nat as Hlt
    by (eapply lookup_lt_Some; eauto).
  rewrite length_prefixes in Hlt.
  rewrite prefixes_lookup in H by lia. split; [congruence | lia].
Qed.

(** [prefixes] lists exactly the prefixes of the bit sequence... *)
Lemma elem_of_prefixes bits p : p ∈ prefixes bits <-> p `prefix_of` bits.
Proof.
  split.
  - intros Hin. apply list_elem_of_lookup in Hin as [k Hk].
    apply prefixes_lookup_inv in Hk as [-> _]. apply prefix_take.
  - intros [rest ->]. apply list_elem_of_lookup. exists (length p).
    rewrite prefixes_lookup by (rewrite length_app; lia).
    by rewrite take_app_length.
Qed.

(** ... in the order of their lengths. *)
Lemma prefixes_ascending bits (i j : nat) p q :
  prefixes bits !! i = Some p -> prefixes bits !! j = Some q ->
  (i < j)%nat -> (length p < length q)%nat.
Proof.
  intros Hi Hj Hlt.
  apply prefixes_lookup_inv in Hi as [-> Hi].
  apply prefixes_lookup_inv in Hj as [-> Hj].
  rewrite !length_take. lia.
Qed.

Lemma omap_fmap_cons {A} (f : list Z -> option A) b (l : list (list Z)) :
  omap f (cons b <$> l) = omap (fun q => f (b :: q)) l.
Proof.
  induction l as [|x l IH]; [reflexivity|]. csimpl.
  rewrite IH. reflexivity.
Qed.

Lemma omap_cons_list {A B} (f : A -> option B) (x : A) (l : list A) :
  omap f (x :: l) = option_list (f x) ++ omap f l.
Proof. csimpl. destruct (f x); reflexivity. Qed.

Lemma omap_None {A B} (l : list A) : omap (fun _ => @None B) l = [].
Proof. induction l; [reflexivity | assumption]. Qed.

Lemma omap_ext_all {A B} (f g : A -> option B) (l : list A) :
  (forall x, f x = g x) -> omap f l = omap g l.
Proof.
  intros H. induction l as [|x l IH]; [reflexivity|]. csimpl.
  rewrite H, IH. reflexivity.
Qed.

Lemma matches_nil node : matches node [] = option_list (entry node).
Proof.
  unfold matches. rewrite prefixes_nil. csimpl. rewrite reg_nil.
  destruct (entry node); reflexivity.
Qed.

Lemma matches_cons node b bits :
  matches node (b :: bits)
  = option_list (entry node)
    ++ match children node b with
       | Some c => matches c bits
       | None => []
       end.
Proof.
  unfold matches.
  rewrite prefixes_cons, omap_cons_list, omap_fmap_cons, reg_nil. f_equal.
  destruct (children node b) as [c|] eqn:Ec.
  - apply omap_ext_all. intros q. rewrite reg_cons, Ec. reflexivity.
  - rewrite <- (omap_None (prefixes bits)).
    apply omap_ext_all. intros q. rewrite reg_cons, Ec. reflexivity.
Qed.

(** The marked nodes a walk passes report the registrations along the
    bits. *)
Lemma visited_matches node bits :
  (fun nd => (cidr nd, metadata nd)) <$> visited node bits
  = matches node bits.
Proof.
  revert node. induction bits as [|b bits IH]; intros node.
  - rewrite matches_nil. simpl. unfold entry.
    destruct (isEnd node); reflexivity.
  - rewrite matches_cons. simpl. rewrite fmap_app. f_equal.
    + unfold entry. destruct (isEnd node); reflexivity.
    + destruct (children node b); [apply IH | reflexivity].
Qed.

End Matches.

(** ** [Find] and [FindAll] in the path view *)

Lemma walk_all_bits (ipBytes : list Z) :
  take (Z.to_nat (Z.of_nat (length ipBytes) * 8)) (drop 0 (bits_of ipBytes))
  = bits_of ipBytes.
Proof. rewrite drop_0. apply take_ge. rewrite length_bits_of. lia. Qed.

(** [FindAll] returns the registrations along the bits of the address,
    and never panics. *)
Lemma FindAll_unfold t s :
  FindAll t s
  = match ParseIP s with
    | None => Err InvalidIP
    | Some ip => Ok (matches (root t) (addr_bits ip))
    end.
Proof.
  unfold FindAll, addr_bits. destruct (ParseIP s) as [ip|]; [|reflexivity].
  cbv zeta.
  destruct (findall_loop_spec (ipToBytes ip)
              (Z.to_nat (Z.of_nat (length (ipToBytes ip)) * 8))
              0 (root t) []) as ([node ms] & Hr & Hpost).
  { rewrite length_bits_of. lia. }
  change (Z.of_nat 0) with 0 in Hr. rewrite Hr. simpl in *.
  rewrite Hpost, walk_all_bits, visited_matches. reflexivity.
Qed.

(** [Find] returns the last of them, and never panics. *)
Lemma Find_unfold t s :
  Find t s
  = match ParseIP s with
    | None => Err InvalidIP
    | Some ip =>
        match last (matches (root t) (addr_bits ip)) with
        | Some e => Ok e
        | None => Err NoMatch
        end
    end.
Proof.
  unfold Find, addr_bits. destruct (ParseIP s) as [ip|]; [|reflexivity].
  cbv zeta.
  destruct (find_loop_spec (ipToBytes ip)
              (Z.to_nat (Z.of_nat (length (ipToBytes ip)) * 8))
              0 (root t) None) as ([node lm] & Hr & Hpost).
  { rewrite length_bits_of. lia. }
  change (Z.of_nat 0) with 0 in Hr. rewrite Hr. simpl in *.
  rewrite Hpost, walk_all_bits, <- visited_matches, fmap_last.
  destruct (last (visited (root t) (bits_of (ipToBytes ip)))); reflexivity.
Qed.

(** ** The loops of [Delete] *)

Section Paths.

Implicit Types (node root : Node) (p q : list Z).

Lemma descend_cons_Some node b p nd :
  descend node (b :: p) = Some nd ->
  exists c, children node b = Some c /\ descend c p = Some nd.
Proof.
  simpl. destruct (children node b) as [c|]; [|discriminate]. eauto.
Qed.

Lemma length_path_nodes node p nd :
  descend node p = Some nd -> length (path_nodes node p) = length p.
Proof.
  revert node. induction p as [|b p IH]; intros node H; [reflexivity|].
  apply descend_cons_Some in H as (c & Hc & Hd). simpl. rewrite Hc.
  f_equal. apply IH, Hd.
Qed.

(** The [k]-th collected node is the node that the first [k] bits lead
    to. *)
Lemma path_nodes_lookup node p nd (k : nat) :
  descend node p = Some nd -> (k < length p)%nat ->
  path_nodes node p !! k = descend node (take k p)
  /\ is_Some (descend node (take k p)).
Proof.
  revert node k. induction p as [|b p IH]; intros node k H Hk; [simpl in Hk; lia|].
  apply descend_cons_Some in H as (c & Hc & Hd).
  destruct k as [|k]; [simpl; eauto|].
  simpl. rewrite Hc. simpl. apply IH; [exact Hd | simpl in Hk; lia].
Qed.

Lemma graft_snoc root q parent b child :
  descend root q = Some parent ->
  graft root (q ++ [b]) child = graft root q (reattach parent b child).
Proof.
  revert root. induction q as [|b0 q IH]; intros root H.
  - injection H as ->. reflexivity.
  - apply descend_cons_Some in H as (c & Hc & Hd). simpl. rewrite Hc. simpl.
    rewrite (IH _ Hd). reflexivity.
Qed.

Lemma delete_path_graft root p :
  delete_path p root
  = nd ← descend root p;
    if isEnd nd then Some (graft root p (unmark nd)) else None.
Proof.
  revert root. induction p as [|b p IH]; intros root; simpl.
  - destruct (isEnd root); reflexivity.
  - destruct (children root b) as [c|]; simpl; [|reflexivity].
    rewrite IH. destruct (descend c p) as [nd|]; simpl; [|reflexivity].
    destruct (isEnd nd); reflexivity.
Qed.

End Paths.

Section DeleteLoops.

Variable ipBytes : list Z.

Lemma delete_walk_ok n (i : nat) node acc :
  (i + n <= length (bits_of ipBytes))%nat ->
  delete_walk ipBytes n (Z.of_nat i) node acc
  = match descend node (take n (drop i (bits_of ipBytes))) with
    | Some nd =>
        Ok (acc ++ path_nodes node (take n (drop i (bits_of ipBytes))), nd)
    | None => Err CIDRNotFound
    end.
Proof.
  revert i node acc. induction n as [|n IH]; intros i node acc Hle; simpl.
  - by rewrite app_nil_r.
  - destruct (bit_at ipBytes (Z.of_nat i)) as [b|] eqn:Eb.
    2:{ apply bit_at_None in Eb. lia. }
    apply bit_at_Some in Eb as [_ ->]. simpl.
    destruct (children node b) as [c|]; simpl; [|reflexivity].
    replace (Z.of_nat i + 1) with (Z.of_nat (S i)) by lia.
    rewrite IH by lia.
    destruct (descend c _); [|reflexivity]. by rewrite <- app_assoc.
Qed.

(** A walk that would run past the end of [ipBytes] never returns the
    path: it stops at a missing child or panics. *)
Lemma delete_walk_past n (i : nat) node acc r :
  (0 < n)%nat -> (length (bits_of ipBytes) < i + n)%nat ->
  delete_walk ipBytes n (Z.of_nat i) node acc <> Ok r.
Proof.
  revert i node acc. induction n as [|n IH]; intros i node acc Hpos Hgt; [lia|].
  simpl. destruct (bit_at ipBytes (Z.of_nat i)) as [b|] eqn:Eb; [|discriminate].
  apply bit_at_Some in Eb as [Hlt _].
  destruct (children node b) as [c|]; [|discriminate].
  replace (Z.of_nat i + 1) with (Z.of_nat (S i)) by lia.
  apply IH; lia.
Qed.

(** The second loop, run from depth [k] with the node there replaced by
    [child], leaves the root that [graft] builds. *)
Lemma cleanup_spec root (n k : nat) nd child :
  let p := take n (bits_of ipBytes) in
  descend root p = Some nd -> (k <= length p)%nat ->
  cleanup ipBytes (path_nodes root p) k child
  = Ok (graft root (take k p) child).
Proof.
  intros p Hd. revert child. induction k as [|k IH]; intros child Hk.
  - reflexivity.
  - destruct (path_nodes_lookup root p nd k Hd) as [Hlk [parent Hparent]]; [lia|].
    assert (p !! k = bits_of ipBytes !! k) as Hbit.
    { unfold p. apply lookup_take_lt. unfold p in Hk.
      rewrite length_take in Hk. lia. }
    destruct (lookup_lt_is_Some_2 p k) as [b Hb]; [lia|].
    simpl. rewrite Hlk, Hparent, bit_at_lookup, <- Hbit, Hb.
    change (if (len_children child =? 0) && negb (isEnd child)
            then del_child parent b else set_child parent b child)
      with (reattach parent b child).
    rewrite IH by lia.
    rewrite (take_S_r _ _ _ Hb), (graft_snoc _ _ _ _ _ Hparent). reflexivity.
Qed.

End DeleteLoops.

(** [Delete] on a CIDR whose walk stays inside [ipBytes]: a not-found
    error or the root that [delete_path] builds. *)
Lemma Delete_unfold t s ip0 ipnet :
  ParseCIDR s = Some (ip0, ipnet) ->
  (delete_len ipnet <= length (bits_of (ipToBytes (IP ipnet))))%nat ->
  Delete t s
  = match delete_path (delete_bits ipnet) (root t) with
    | Some r => Ok (mkIPTrie r)
    | None => Err CIDRNotFound
    end.
Proof.
  intros Hparse Hlen. unfold Delete, delete_bits, delete_len in *.
  rewrite Hparse. destruct (Size (IPMask ipnet)) as [ones total]. cbv zeta.
  set (n := Z.to_nat _) in *. set (ipBytes := ipToBytes (IP ipnet)) in *.
  change 0 with (Z.of_nat 0).
  rewrite delete_walk_ok by (simpl; lia). rewrite drop_0.
  rewrite delete_path_graft.
  destruct (descend (root t) (take n (bits_of ipBytes))) as [nd|] eqn:Hd;
    simpl; [|reflexivity].
  destruct (isEnd nd); simpl; [|reflexivity].
  rewrite (length_path_nodes _ _ _ Hd).
  rewrite (cleanup_spec ipBytes (root t) n _ nd _ Hd) by lia.
  simpl. rewrite firstn_all. reflexivity.
Qed.

Lemma Delete_parse_error t s :
  ParseCIDR s = None -> Delete t s = Err InvalidCIDR.
Proof. intros H. unfold Delete. rewrite H. reflexivity. Qed.

(** A [Delete] that succeeds walked a path inside [ipBytes]. *)
Lemma Delete_Ok_inv t s t' :
  Delete t s = Ok t' ->
  exists ip0 ipnet,
    ParseCIDR s = Some (ip0, ipnet)
    /\ (delete_len ipnet <= length (bits_of (ipToBytes (IP ipnet))))%nat
    /\ delete_path (delete_bits ipnet) (root t) = Some (root t').
Proof.
  intros H. destruct (ParseCIDR s) as [[ip0 ipnet]|] eqn:Hparse.
  2:{ rewrite Delete_parse_error in H by assumption. discriminate. }
  exists ip0, ipnet. split; [reflexivity|].
  destruct (decide (delete_len ipnet
                    <= length (bits_of (ipToBytes (IP ipnet))))%nat) as [Hle|Hgt].
  - split; [exact Hle|]. rewrite (Delete_unfold _ _ _ _ Hparse Hle) in H.
    destruct (delete_path _ _); [|discriminate]. by injection H as <-.
  - exfalso. unfold Delete, delete_len in *. rewrite Hparse in H.
    destruct (Size (IPMask ipnet)) as [ones total]. cbv zeta in H.
    set (n := Z.to_nat _) in *.
    destruct (delete_walk _ n 0 (root t) []) as [r| |] eqn:Hw;
      try discriminate.
    change 0 with (Z.of_nat 0) in Hw.
    apply delete_walk_past in Hw; [exact Hw | lia | simpl; lia].
Qed.

(** ** The pruning invariant *)

Section Pruning.

Implicit Types (node c : Node) (b : Z) (p : list Z).

Lemma alive_unfold node : alive node = negb (dead node) && alive_below node.
Proof. destruct node as [[?|] [?|] ? ? ?]; simpl; by rewrite <- ?andb_assoc. Qed.

Lemma alive_alive_below node : alive node = true -> alive_below node = true.
Proof. rewrite alive_unfold. intros H. by apply andb_true_iff in H as [_ H]. Qed.

Lemma alive_not_dead node : alive node = true -> dead node = false.
Proof.
  rewrite alive_unfold. intros H. apply andb_true_iff in H as [H _].
  by apply negb_true_iff in H.
Qed.

Lemma children_cases node b c :
  children node b = Some c -> child0 node = Some c \/ child1 node = Some c.
Proof.
  unfold children. destruct (b =? 0); [by left|].
  destruct (b =? 1); [by right | discriminate].
Qed.

Lemma alive_below_children node b c :
  alive_below node = true -> children node b = Some c -> alive c = true.
Proof.
  unfold alive_below. intros H Hc. apply andb_true_iff in H as [H0 H1].
  apply children_cases in Hc as [Hc | Hc]; rewrite Hc in *; assumption.
Qed.

Lemma alive_below_default node b :
  alive_below node = true ->
  alive_below (default newNode (children node b)) = true.
Proof.
  intros H. destruct (children node b) as [c|] eqn:Hc; [|reflexivity].
  eapply alive_alive_below, alive_below_children; eauto.
Qed.

Lemma alive_set_child node b c :
  isbit b -> alive_below node = true -> alive c = true ->
  alive (set_child node b c) = true.
Proof.
  intros [-> | ->] H Hc; unfold alive_below in H;
    apply andb_true_iff in H as [H0 H1];
    rewrite alive_unfold; unfold set_child, dead, len_children, alive_below;
    simpl; rewrite ?Hc, ?H0, ?H1; destruct (child0 node), (child1 node);
    reflexivity.
Qed.

Lemma alive_below_del_child node b :
  alive_below node = true -> alive_below (del_child node b) = true.
Proof.
  unfold alive_below, del_child. intros H.
  apply andb_true_iff in H as [H0 H1].
  destruct (b =? 0); [simpl; exact H1|].
  destruct (b =? 1); simpl; rewrite ?H0, ?H1; reflexivity.
Qed.

Lemma alive_below_reattach parent b child :
  isbit b -> alive_below parent = true -> alive_below child = true ->
  alive_below (reattach parent b child) = true.
Proof.
  intros Hb Hp Hc. unfold reattach. destruct (dead child) eqn:Hdead.
  - apply alive_below_del_child, Hp.
  - apply alive_alive_below, alive_set_child; try assumption.
    rewrite alive_unfold, Hdead, Hc. reflexivity.
Qed.

(** [Insert] leaves every node on its path with a child or a mark. *)
Lemma insert_path_alive p node s md :
  Forall isbit p -> alive_below node = true ->
  alive (insert_path p node s md) = true.
Proof.
  intros Hp. revert node.
  induction Hp as [|b p Hb Hp IH]; intros node H; cbn [insert_path].
  - rewrite alive_unfold. unfold dead. simpl. rewrite andb_false_r. exact H.
  - apply alive_set_child; [exact Hb | exact H |].
    apply IH, alive_below_default, H.
Qed.

(** [Delete] detaches every node that it leaves childless and unmarked. *)
Lemma delete_path_alive_below p node node' :
  Forall isbit p -> alive_below node = true ->
  delete_path p node = Some node' -> alive_below node' = true.
Proof.
  intros Hp. revert node node'.
  induction Hp as [|b p Hb Hp IH]; intros node node' H; simpl.
  - destruct (isEnd node); [|discriminate]. intros [= <-]. exact H.
  - destruct (children node b) as [c|] eqn:Hc; simpl; [|discriminate].
    destruct (delete_path p c) as [c'|] eqn:Hd; simpl; [|discriminate].
    intros [= <-]. apply alive_below_reattach; [exact Hb | exact H |].
    eapply IH; [|exact Hd].
    eapply alive_alive_below, alive_below_children; eauto.
Qed.

Lemma alive_descend node p nd :
  alive node = true -> descend node p = Some nd -> alive nd = true.
Proof.
  revert node. induction p as [|b p IH]; intros node H Hd.
  - by injection Hd as <-.
  - apply descend_cons_Some in Hd as (c & Hc & Hd).
    eapply IH; [|exact Hd].
    eapply alive_below_children; [apply alive_alive_below, H | exact Hc].
Qed.

Lemma alive_below_descend root p nd :
  alive_below root = true -> p <> [] -> descend root p = Some nd ->
  alive nd = true.
Proof.
  intros H Hp Hd. destruct p as [|b p]; [congruence|].
  apply descend_cons_Some in Hd as (c & Hc & Hd).
  eapply alive_descend; [|exact Hd]. eapply alive_below_children; eauto.
Qed.

Lemma Forall_isbit_cidr_bits ipnet : Forall isbit (cidr_bits ipnet).
Proof. apply Forall_take, Forall_isbit_bits_of. Qed.

Lemma Forall_isbit_delete_bits ipnet : Forall isbit (delete_bits ipnet).
Proof. apply Forall_take, Forall_isbit_bits_of. Qed.

Lemma run_alive_below t o t' :
  alive_below (root t) = true -> run t o = Some t' ->
  alive_below (root t') = true.
Proof.
  intros H. destruct o as [c md | ip | ip | c]; simpl.
  - rewrite Insert_unfold. destruct (ParseCIDR c) as [[ip0 ipnet]|].
    + case_decide; [|discriminate]. intros [= <-]. simpl.
      apply alive_alive_below, insert_path_alive;
        [apply Forall_isbit_cidr_bits | exact H].
    + by intros [= <-].
  - destruct (Find t ip); [| |discriminate]; by intros [= <-].
  - destruct (FindAll t ip); [| |discriminate]; by intros [= <-].
  - destruct (Delete t c) as [t1| |] eqn:Hd; [| |discriminate].
    + intros [= <-]. apply Delete_Ok_inv in Hd as (ip0 & ipnet & _ & _ & Hd).
      eapply delete_path_alive_below;
        [apply Forall_isbit_delete_bits | exact H | exact Hd].
    + by intros [= <-].
Qed.

Lemma reachable_alive_below t : reachable t -> alive_below (root t) = true.
Proof.
  induction 1 as [|t o t' _ IH Hrun]; [reflexivity|].
  eapply run_alive_below; eauto.
Qed.

End Pruning.

(** ** Lists *)

Section ListFacts.

Context {A B : Type}.

(** The last element that [omap f] keeps comes from the last position
    where [f] is defined. *)
Lemma last_omap (f : A -> option B) (l : list A) :
  match last (omap f l) with
  | Some e =>
      exists (i : nat) x,
        l !! i = Some x /\ f x = Some e
        /\ forall (j : nat) y, (i < j)%nat -> l !! j = Some y -> f y = None
  | None => forall x, x ∈ l -> f x = None
  end.
Proof.
  induction l as [|x l IH].
  - simpl. intros x Hx. by apply elem_of_nil in Hx.
  - rewrite omap_cons_list, last_app.
    destruct (last (omap f l)) as [e|].
    + destruct IH as (i & y & Hi & Hy & Hlast).
      exists (S i), y. split; [exact Hi|]. split; [exact Hy|].
      intros [|j] z Hlt Hj; [lia|]. apply (Hlast j); [lia | exact Hj].
    + destruct (f x) as [e|] eqn:Hfx; simpl.
      * exists 0%nat, x. split; [reflexivity|]. split; [exact Hfx|].
        intros [|j] z Hlt Hj; [lia|]. apply IH.
        apply list_elem_of_lookup. eauto.
      * intros z Hz. apply elem_of_cons in Hz as [-> | Hz]; [exact Hfx|].
        by apply IH.
Qed.

Lemma omap_all_None (f : A -> option B) (l : list A) :
  (forall x, x ∈ l -> f x = None) -> omap f l = [].
Proof.
  induction l as [|x l IH]; intros H; [reflexivity|].
  rewrite omap_cons_list, (H x) by left. simpl.
  apply IH. intros y Hy. apply H. by right.
Qed.

Lemma omap_filter_Forall2 (f : A -> option B) (l : list A) :
  Forall2 (fun x y => f x = Some y)
          (filter (fun x => is_Some (f x)) l) (omap f l).
Proof.
  induction l as [|x l IH]; [constructor|].
  rewrite filter_cons, omap_cons_list.
  destruct (f x) as [y|] eqn:Hfx.
  - rewrite decide_True by eauto. constructor; assumption.
  - rewrite decide_False by (intros [? ?]; congruence). exact IH.
Qed.

Lemma StronglySorted_lookup (R : A -> A -> Prop) (l : list A) :
  (forall (i j : nat) x y,
      l !! i = Some x -> l !! j = Some y -> (i < j)%nat -> R x y) ->
  StronglySorted R l.
Proof.
  induction l as [|x l IH]; intros H; constructor.
  - apply IH. intros i j y z Hi Hj Hlt. apply (H (S i) (S j)); [done..|lia].
  - apply Forall_forall. intros y Hy.
    apply list_elem_of_lookup in Hy as [j Hj].
    apply (H 0%nat (S j)); [done..|lia].
Qed.

Lemma StronglySorted_filter_list (R : A -> A -> Prop) (P : A -> Prop)
      `{!forall x, Decision (P x)} (l : list A) :
  StronglySorted R l -> StronglySorted R (filter P l).
Proof.
  induction 1 as [|x l Hs IH Hall]; [constructor|].
  rewrite filter_cons. case_decide; [|exact IH].
  constructor; [exact IH|].
  apply Forall_forall. intros y Hy. apply list_elem_of_filter in Hy as [_ Hy].
  rewrite Forall_forall in Hall. by apply Hall.
Qed.

End ListFacts.

Lemma prefixes_sorted (bits : list Z) :
  StronglySorted (fun p q => (length p < length q)%nat) (prefixes bits).
Proof.
  apply StronglySorted_lookup. intros i j p q. apply prefixes_ascending.
Qed.

Lemma matches_eq_nil node bits :
  (forall p, p `prefix_of` bits -> reg node p = None) ->
  matches node bits = [].
Proof.
  intros H. apply omap_all_None. intros p Hp.
  apply H, elem_of_prefixes, Hp.
Qed.

(** ** Lookups *)

Example overlapping_built :
  (t ← Insert NewIPTrie "192.168.0.0/16" md_wide;
   Insert t "192.168.1.0/24" md_narrow) = Ok overlapping.
Proof. vm_compute. reflexivity. Qed.

Example Find_overlapping :
  Find overlapping "192.168.1.100" = Ok ("192.168.1.0/24", md_narrow)
  /\ Find overlapping "192.168.2.1" = Ok ("192.168.0.0/16", md_wide)
  /\ Find overlapping "192.169.0.1" = Err NoMatch.
Proof. repeat split; vm_compute; reflexivity. Qed.

(** [Find] returns the registration at the longest registered prefix of
    the address's bits. *)
Lemma Find_returns_longest (t : IPTrie) (s : string) (ip : list Z) :
  ParseIP s = Some ip ->
  (exists p, p `prefix_of` addr_bits ip /\ is_Some (reg (root t) p)) ->
  exists p e,
    Find t s = Ok e
    /\ p `prefix_of` addr_bits ip
    /\ reg (root t) p = Some e
    /\ forall q, q `prefix_of` addr_bits ip -> is_Some (reg (root t) q) ->
                 (length q <= length p)%nat.
Proof.
  intros Hparse (p0 & Hp0 & Hreg0).
  rewrite Find_unfold, Hparse. unfold matches.
  pose proof (last_omap (reg (root t)) (prefixes (addr_bits ip))) as Hlast.
  destruct (last (omap (reg (root t)) (prefixes (addr_bits ip)))) as [e|].
  - destruct Hlast as (i & p & Hi & Hp & Hmax).
    apply prefixes_lookup_inv in Hi as [-> Hi].
    exists (take i (addr_bits ip)), e.
    split; [reflexivity|]. split; [apply prefix_take|]. split; [exact Hp|].
    intros q Hq [e' He']. rewrite length_take, Nat.min_l by exact Hi.
    destruct (decide (length q <= i)%nat) as [Hle|Hgt]; [exact Hle|].
    exfalso. pose proof (prefix_length _ _ Hq) as Hlen.
    destruct Hq as [rest Hq].
    rewrite (Hmax (length q) q) in He'; [discriminate | lia |].
    rewrite prefixes_lookup by exact Hlen.
    rewrite Hq at 1. by rewrite take_app_length.
  - exfalso. destruct Hreg0 as [e He].
    rewrite (Hlast p0) in He; [discriminate|]. by apply elem_of_prefixes.
Qed.

(** C1.  For an address that parses: when some registered prefix is a
    prefix of the address's bit sequence, [Find] succeeds and returns the
    CIDR text and metadata registered at the longest such prefix.  The
    empty path (a registration at the root) is a prefix of every address,
    and the walk passes no registered node deeper than the one returned. *)
Theorem Find_longest_match (t : IPTrie) (s : string) (ip : list Z) :
  ParseIP s = Some ip ->
  (exists p, p `prefix_of` addr_bits ip /\ is_Some (reg (root t) p)) ->
  exists p e,
    Find t s = Ok e
    /\ p `prefix_of` addr_bits ip
    /\ reg (root t) p = Some e
    /\ forall q, q `prefix_of` addr_bits ip -> is_Some (reg (root t) q) ->
                 (length q <= length p)%nat.
Proof. apply Find_returns_longest. Qed.

Lemma Find_longest_match_witness :
  exists p e,
    Find overlapping "192.168.1.100" = Ok e
    /\ p `prefix_of` addr_bits (v4InV6Prefix ++ [192; 168; 1; 100])
    /\ reg (root overlapping) p = Some e
    /\ forall q, q `prefix_of` addr_bits (v4InV6Prefix ++ [192; 168; 1; 100]) ->
                 is_Some (reg (root overlapping) q) ->
                 (length q <= length p)%nat.
Proof.
  apply (Find_longest_match overlapping "192.168.1.100"
           (v4InV6Prefix ++ [192; 168; 1; 100])).
  - reflexivity.
  - exists (take 16 (addr_bits (v4InV6Prefix ++ [192; 168; 1; 100]))).
    split; [apply prefix_take|]. vm_compute. eauto.
Defined.

(** C2.  For an address that parses, [FindAll] returns a list [l] that
    holds, entry for entry, the registrations at the paths [ps], where [ps]
    are exactly the registered paths that are prefixes of the address's bit
    sequence, in strictly ascending order of length. *)
Theorem FindAll_all_matches (t : IPTrie) (s : string) (ip : list Z) :
  ParseIP s = Some ip ->
  exists ps l,
    FindAll t s = Ok l
    /\ Forall2 (fun p e => reg (root t) p = Some e) ps l
    /\ (forall p, p ∈ ps <->
                  p `prefix_of` addr_bits ip /\ is_Some (reg (root t) p))
    /\ StronglySorted (fun p q => (length p < length q)%nat) ps.
Proof.
  intros Hparse.
  exists (filter (fun p => is_Some (reg (root t) p)) (prefixes (addr_bits ip))).
  exists (matches (root t) (addr_bits ip)).
  split; [by rewrite FindAll_unfold, Hparse|].
  split; [apply omap_filter_Forall2|]. split.
  - intros p. rewrite list_elem_of_filter, elem_of_prefixes. tauto.
  - apply StronglySorted_filter_list, prefixes_sorted.
Qed.

Lemma FindAll_all_matches_witness :
  FindAll overlapping "192.168.1.100"
  = Ok [("192.168.0.0/16", md_wide); ("192.168.1.0/24", md_narrow)]
  /\ exists ps l,
      FindAll overlapping "192.168.1.100" = Ok l
      /\ Forall2 (fun p e => reg (root overlapping) p = Some e) ps l
      /\ (forall p, p ∈ ps <->
                    p `prefix_of` addr_bits (v4InV6Prefix ++ [192; 168; 1; 100])
                    /\ is_Some (reg (root overlapping) p))
      /\ StronglySorted (fun p q => (length p < length q)%nat) ps.
Proof.
  split; [vm_compute; reflexivity|].
  apply (FindAll_all_matches overlapping "192.168.1.100"
           (v4InV6Prefix ++ [192; 168; 1; 100])).
  reflexivity.
Defined.

(** C3, as the code has it.  For an address that parses and that no
    registered prefix covers, [FindAll] returns the empty list and no
    error, while [Find] returns the not-found error; the only error
    [FindAll] ever returns is the one for an address that does not parse. *)
Theorem FindAll_no_match_is_empty (t : IPTrie) (s : string) (ip : list Z) :
  ParseIP s = Some ip ->
  (forall p, p `prefix_of` addr_bits ip -> reg (root t) p = None) ->
  FindAll t s = Ok []
  /\ Find t s = Err NoMatch
  /\ forall s' e, FindAll t s' = Err e -> e = InvalidIP /\ ParseIP s' = None.
Proof.
  intros Hparse Hnone.
  rewrite FindAll_unfold, Find_unfold, Hparse, matches_eq_nil by exact Hnone.
  split; [reflexivity|]. split; [reflexivity|].
  intros s' e. rewrite FindAll_unfold.
  destruct (ParseIP s'); [discriminate|]. intros [= <-]. done.
Qed.

Lemma FindAll_no_match_is_empty_witness :
  FindAll overlapping "10.0.0.1" = Ok []
  /\ Find overlapping "10.0.0.1" = Err NoMatch
  /\ forall s' e, FindAll overlapping s' = Err e
                  -> e = InvalidIP /\ ParseIP s' = None.
Proof.
  apply (FindAll_no_match_is_empty overlapping "10.0.0.1"
           (v4InV6Prefix ++ [10; 0; 0; 1])).
  - reflexivity.
  - intros p Hp. apply elem_of_prefixes in Hp.
    revert p Hp. apply Forall_forall. vm_compute.
    repeat (constructor; [reflexivity|]). constructor.
Defined.

(** C3, as the claim has it, fails: on a new trie [FindAll] of a
    well-formed address succeeds with the empty list, where [Find] reports
    the not-found error. *)
Lemma FindAll_not_found_counterexample :
  ParseIP "10.0.0.1" = Some (v4InV6Prefix ++ [10; 0; 0; 1])
  /\ (forall p, reg (root NewIPTrie) p = None)
  /\ Find NewIPTrie "10.0.0.1" = Err NoMatch
  /\ FindAll NewIPTrie "10.0.0.1" = Ok []
  /\ FindAll NewIPTrie "10.0.0.1" <> Err NoMatch.
Proof.
  split; [reflexivity|]. split; [apply reg_newNode|].
  split; [vm_compute; reflexivity|]. split; [vm_compute; reflexivity|].
  vm_compute. discriminate.
Qed.

(** C10.  [Find] succeeds exactly when [FindAll] returns a non-empty list;
    both return the invalid-address error on text that does not parse; and
    what [Find] returns is the last element of what [FindAll] returns. *)
Theorem Find_FindAll_agree (t : IPTrie) (s : string) :
  ((exists e, Find t s = Ok e) <-> (exists l, FindAll t s = Ok l /\ l <> []))
  /\ (ParseIP s = None <-> Find t s = Err InvalidIP)
  /\ (ParseIP s = None <-> FindAll t s = Err InvalidIP)
  /\ (forall e, Find t s = Ok e ->
                exists l, FindAll t s = Ok l /\ last l = Some e).
Proof.
  rewrite Find_unfold, FindAll_unfold.
  destruct (ParseIP s) as [ip|].
  - destruct (last (matches (root t) (addr_bits ip))) as [e|] eqn:Hlast.
    + split.
      { split; [|eauto]. intros _. eexists. split; [reflexivity|].
        intros Hnil. rewrite Hnil in Hlast. discriminate. }
      split; [split; discriminate|]. split; [split; discriminate|].
      intros e' [= <-]. eauto.
    + split.
      { split; [intros [? ?]; discriminate|].
        intros (l & [= <-] & Hne). apply last_None in Hlast. contradiction. }
      split; [split; discriminate|]. split; [split; discriminate|].
      intros e' ?; discriminate.
  - split.
    { split; [intros [? ?]; discriminate | intros (? & ? & _); discriminate]. }
    split; [done|]. split; [done|]. intros e' ?; discriminate.
Qed.

(** ** Deletion leaves the other registrations alone *)

Lemma omap_ext_in {A B} (f g : A -> option B) (l : list A) :
  (forall x, x ∈ l -> f x = g x) -> omap f l = omap g l.
Proof.
  induction l as [|x l IH]; intros H; [reflexivity|].
  rewrite !omap_cons_list, (H x) by left. f_equal.
  apply IH. intros y Hy. apply H. by right.
Qed.

Lemma descend_app node q k :
  descend node (q ++ k) = descend node q ≫= fun nd => descend nd k.
Proof.
  revert node. induction q as [|b q IH]; intros node; [reflexivity|].
  simpl. destruct (children node b); simpl; [apply IH | reflexivity].
Qed.


Lemma matches_delete_path p node node' bits :
  Forall isbit p -> delete_path p node = Some node' ->
  matches node' bits = matches_without p node bits.
Proof.
  intros Hp Hd. apply omap_ext_all. intros q.
  apply (reg_delete_path _ _ _ _ Hp Hd).
Qed.


(** What a successful [Delete] does to the registrations and to the
    lookups. *)
Lemma Delete_Ok_effect t c t' :
  Delete t c = Ok t' ->
  exists p,
    is_Some (reg (root t) p)
    /\ reg (root t') p = None
    /\ (forall q, q <> p -> reg (root t') q = reg (root t) q)
    /\ (forall bits, matches (root t') bits = matches_without p (root t) bits).
Proof.
  intros Hd. apply Delete_Ok_inv in Hd as (ip0 & ipnet & _ & _ & Hd).
  pose proof (Forall_isbit_delete_bits ipnet) as Hp.
  exists (delete_bits ipnet). split.
  { apply not_eq_None_Some. rewrite <- delete_path_None. congruence. }
  split.
  { rewrite (reg_delete_path _ _ _ _ Hp Hd). by rewrite decide_True. }
  split.
  { intros q Hq. rewrite (reg_delete_path _ _ _ _ Hp Hd).
    by rewrite decide_False. }
  intros bits. by apply matches_delete_path.
Qed.




Example Delete_keeps_shorter_prefix :
  Find nested "10.2.3.4" = Ok (ten_8, md_wide)
  /\ Find nested_deleted "10.2.3.4" = Ok (ten_8, md_wide)
  /\ Find nested "10.1.2.3" = Ok (ten_1_16, md_narrow)
  /\ Find nested_deleted "10.1.2.3" = Ok (ten_8, md_wide).
Proof. repeat split; vm_compute; reflexivity. Qed.

(** ** The pruning invariant in every reachable trie *)

Lemma foldl_run_None (ops : list op) :
  foldl (fun ot o => ot ≫= fun t => run t o) None ops = None.
Proof. induction ops as [|o ops IH]; [reflexivity | exact IH]. Qed.

Lemma reachable_foldl (ops : list op) (t0 t : IPTrie) :
  reachable t0 ->
  foldl (fun ot o => ot ≫= fun t => run t o) (Some t0) ops = Some t ->
  reachable t.
Proof.
  revert t0. induction ops as [|o ops IH]; intros t0 H0; simpl.
  - by intros [= <-].
  - destruct (run t0 o) as [t1|] eqn:Hrun.
    + apply IH. by apply (reach_run t0 o).
    + rewrite foldl_run_None. discriminate.
Qed.

Lemma reachable_after (ops : list op) (t : IPTrie) :
  after ops = Some t -> reachable t.
Proof. apply reachable_foldl, reach_new. Qed.

(** C8, as the code has it.  In every trie that a sequence of completed
    calls leaves, no node other than the root is childless and
    unregistered. *)
Theorem no_dead_node_below_root (t : IPTrie) :
  reachable t ->
  forall p nd, p <> [] -> descend (root t) p = Some nd ->
               len_children nd = 0 -> isEnd nd = true.
Proof.
  intros Hreach p nd Hp Hd Hlen.
  apply reachable_alive_below in Hreach.
  pose proof (alive_not_dead _ (alive_below_descend _ _ _ Hreach Hp Hd)) as H.
  unfold dead in H. rewrite Hlen in H. simpl in H.
  by apply negb_false_iff in H.
Qed.

Lemma no_dead_node_below_root_witness :
  reachable nested_deleted
  /\ forall p nd, p <> [] -> descend (root nested_deleted) p = Some nd ->
                  len_children nd = 0 -> isEnd nd = true.
Proof.
  assert (reachable nested_deleted) as Hreach.
  { apply (reachable_after [OpInsert ten_8 md_wide; OpInsert ten_1_16 md_narrow;
                            OpDelete ten_1_16]).
    vm_compute. reflexivity. }
  split; [exact Hreach|].
  apply (no_dead_node_below_root nested_deleted Hreach).
Defined.

(** C8, as the claim has it, fails at the root: the root of a new trie has
    no children and no registration, and so has the root after the only
    prefix was deleted. *)
Lemma empty_root_counterexample :
  reachable NewIPTrie
  /\ descend (root NewIPTrie) [] = Some newNode
  /\ len_children newNode = 0 /\ isEnd newNode = false
  /\ after [OpInsert ten_8 md_wide; OpDelete ten_8] = Some NewIPTrie
  /\ ~ (forall t, reachable t ->
          forall p nd, descend (root t) p = Some nd ->
                       len_children nd = 0 -> isEnd nd = true).
Proof.
  split; [constructor|]. split; [reflexivity|]. split; [reflexivity|].
  split; [reflexivity|]. split; [vm_compute; reflexivity|].
  intros H. specialize (H NewIPTrie reach_new [] newNode eq_refl eq_refl).
  discriminate.
Qed.

(** ** One trie for both address families *)

Lemma prefix_same_length (p q l : list Z) :
  p `prefix_of` l -> q `prefix_of` l -> length p = length q -> p = q.
Proof.
  intros [k1 ->] [k2 H] Hlen.
  apply (f_equal (take (length p))) in H.
  rewrite take_app_length, Hlen, take_app_length in H. exact H.
Qed.

Lemma ParseIP_length (s : string) (ip : list Z) :
  ParseIP s = Some ip -> length ip = 16%nat.
Proof.
  unfold ParseIP. destruct (ParseAddr (chars s)) as [a|]; [|discriminate].
  intros [= <-]. destruct a; reflexivity.
Qed.

(** A 16-byte address that is not IPv4-mapped is walked in all its 128
    bits. *)
Lemma ipToBytes_v6 (ip : list Z) :
  length ip = 16%nat -> To4 ip = None -> ipToBytes ip = ip.
Proof.
  intros Hlen H4. unfold ipToBytes, To16. rewrite H4, Hlen. reflexivity.
Qed.

Lemma ipToBytes_v4 (ip : list Z) : length ip = 4%nat -> ipToBytes ip = ip.
Proof.
  intros Hlen. unfold ipToBytes, To4. rewrite Hlen. reflexivity.
Qed.

(** What a successful [Insert] does to the registrations. *)
Lemma Insert_Ok_effect t c md t' :
  Insert t c md = Ok t' ->
  exists ip0 ipnet,
    ParseCIDR c = Some (ip0, ipnet) /\ walkable ipnet
    /\ forall q, reg (root t') q
                 = if decide (q = cidr_bits ipnet) then Some (c, md)
                   else reg (root t) q.
Proof.
  rewrite Insert_unfold. destruct (ParseCIDR c) as [[ip0 ipnet]|]; [|discriminate].
  case_decide as Hw; [|discriminate]. intros [= <-].
  exists ip0, ipnet. split; [reflexivity|]. split; [exact Hw|].
  intros q. apply reg_insert_path, Forall_isbit_cidr_bits.
Qed.

(** C9.  After an IPv4 CIDR of prefix length [L] was inserted, the walk of
    an IPv6 address (16 bytes, not IPv4-mapped, 128 bits) whose first [L]
    bits are the bits of that prefix reaches the node that [Insert] marked
    and finds the IPv4 entry there: [FindAll] lists it, [Find] succeeds, and
    [Find] returns it unless a longer registered prefix covers the
    address. *)
Theorem families_share_nodes (t : IPTrie) (c : string) (md : gmap string Value)
        (t' : IPTrie) (ip0 : list Z) (ipnet : IPNet) (s : string) (ip : list Z) :
  ParseCIDR c = Some (ip0, ipnet) ->
  length (IP ipnet) = 4%nat ->
  Insert t c md = Ok t' ->
  ParseIP s = Some ip ->
  To4 ip = None ->
  take (prefix_len ipnet) (bits_of ip) = cidr_bits ipnet ->
  length (bits_of (ipToBytes (IP ipnet))) = 32%nat
  /\ length (addr_bits ip) = 128%nat
  /\ descend (root t') (take (prefix_len ipnet) (addr_bits ip))
     = descend (root t') (cidr_bits ipnet)
  /\ reg (root t') (take (prefix_len ipnet) (addr_bits ip)) = Some (c, md)
  /\ (exists l, FindAll t' s = Ok l /\ (c, md) ∈ l)
  /\ (exists e, Find t' s = Ok e)
  /\ ((forall q, q `prefix_of` addr_bits ip -> is_Some (reg (root t') q) ->
                 (length q <= prefix_len ipnet)%nat) ->
      Find t' s = Ok (c, md)).
Proof.
  intros Hcidr H4 Hins Hparse Hv6 Hbits.
  pose proof (ParseIP_length _ _ Hparse) as H16.
  apply Insert_Ok_effect in Hins as (ip0' & ipnet' & Hcidr' & Hw & Hreg).
  rewrite Hcidr in Hcidr'. injection Hcidr' as <- <-.
  unfold addr_bits. rewrite (ipToBytes_v6 _ H16 Hv6), Hbits.
  assert (length (bits_of (ipToBytes (IP ipnet))) = 32%nat) as H32.
  { rewrite length_bits_of, ipToBytes_v4, H4 by exact H4. reflexivity. }
  assert (reg (root t') (cidr_bits ipnet) = Some (c, md)) as Hhere.
  { rewrite Hreg. by rewrite decide_True. }
  assert (cidr_bits ipnet `prefix_of` bits_of ip) as Hpre.
  { rewrite <- Hbits. apply prefix_take. }
  assert (length (cidr_bits ipnet) = prefix_len ipnet) as Hlen.
  { unfold cidr_bits. rewrite length_take. unfold walkable in Hw. lia. }
  split; [exact H32|]. split; [rewrite length_bits_of, H16; reflexivity|].
  split; [reflexivity|]. split; [exact Hhere|].
  destruct (Find_returns_longest t' s ip Hparse) as (p & e & Hfind & Hp & He & Hmax).
  { exists (cidr_bits ipnet). unfold addr_bits.
    rewrite (ipToBytes_v6 _ H16 Hv6). split; [exact Hpre | by rewrite Hhere]. }
  unfold addr_bits in Hp, Hmax. rewrite (ipToBytes_v6 _ H16 Hv6) in Hp, Hmax.
  split.
  { exists (matches (root t') (bits_of ip)). split.
    - rewrite FindAll_unfold, Hparse. unfold addr_bits.
      by rewrite (ipToBytes_v6 _ H16 Hv6).
    - apply list_elem_of_omap. exists (cidr_bits ipnet).
      split; [by apply elem_of_prefixes | exact Hhere]. }
  split; [eauto|].
  intros Hlongest. rewrite Hfind. f_equal.
  assert (p = cidr_bits ipnet) as ->; [|congruence].
  apply (prefix_same_length _ _ (bits_of ip) Hp Hpre).
  assert (length p <= prefix_len ipnet)%nat
    by (apply Hlongest; [exact Hp | by rewrite He]).
  assert (length (cidr_bits ipnet) <= length p)%nat
    by (apply Hmax; [exact Hpre | by rewrite Hhere]).
  lia.
Qed.

Lemma families_share_nodes_witness :
  Find only_ten_8 "a00::1" = Ok (ten_8, md_wide)
  /\ length (bits_of (ipToBytes [10; 0; 0; 0])) = 32%nat
  /\ length (addr_bits [10; 0; 0; 0; 0; 0; 0; 0; 0; 0; 0; 0; 0; 0; 0; 1])
     = 128%nat
  /\ exists l, FindAll only_ten_8 "a00::1" = Ok l /\ (ten_8, md_wide) ∈ l.
Proof.
  split; [vm_compute; reflexivity|].
  pose proof (families_share_nodes NewIPTrie ten_8 md_wide only_ten_8
                (v4InV6Prefix ++ [10; 0; 0; 0])
                (mkIPNet [10; 0; 0; 0] [255; 0; 0; 0])
                "a00::1" [10; 0; 0; 0; 0; 0; 0; 0; 0; 0; 0; 0; 0; 0; 0; 1])
    as H.
  destruct H as (H32 & H128 & _ & _ & Hall & _).
  - reflexivity.
  - reflexivity.
  - vm_compute. reflexivity.
  - reflexivity.
  - reflexivity.
  - vm_compute. reflexivity.
  - split; [exact H32|]. split; [exact H128 | exact Hall].
Defined.

(** ** What [ParseCIDR] guarantees *)

Section NetFacts.

Lemma Z_bounded_forall (P : Z -> bool) (N : nat) :
  forallb (fun k => P (Z.of_nat k)) (seq 0 N) = true ->
  forall n, 0 <= n < Z.of_nat N -> P n = true.
Proof.
  intros H n Hn. rewrite forallb_forall in H.
  specialize (H (Z.to_nat n)). rewrite Z2Nat.id in H by lia.
  apply H. apply in_seq. lia.
Qed.

Lemma length_mask_bytes (l : nat) (n : Z) : length (mask_bytes l n) = l.
Proof.
  revert n. induction l as [|l IH]; intros n; [reflexivity|].
  simpl. destruct (8 <=? n); simpl; by rewrite IH.
Qed.

(** [Size] reads back what [CIDRMask] was given. *)
Lemma Size_mask_bytes_4 (n : Z) :
  0 <= n <= 32 -> Size (mask_bytes 4 n) = (n, 32).
Proof.
  intros Hn.
  assert (((Size (mask_bytes 4 n)).1 =? n)
          && ((Size (mask_bytes 4 n)).2 =? 32) = true) as H.
  { apply (Z_bounded_forall
             (fun n => ((Size (mask_bytes 4 n)).1 =? n)
                       && ((Size (mask_bytes 4 n)).2 =? 32)) 33);
      [vm_compute; reflexivity | lia]. }
  apply andb_true_iff in H as [H1 H2]. apply Z.eqb_eq in H1, H2.
  destruct (Size (mask_bytes 4 n)). simpl in *. congruence.
Qed.

Lemma Size_mask_bytes_16 (n : Z) :
  0 <= n <= 128 -> Size (mask_bytes 16 n) = (n, 128).
Proof.
  intros Hn.
  assert (((Size (mask_bytes 16 n)).1 =? n)
          && ((Size (mask_bytes 16 n)).2 =? 128) = true) as H.
  { apply (Z_bounded_forall
             (fun n => ((Size (mask_bytes 16 n)).1 =? n)
                       && ((Size (mask_bytes 16 n)).2 =? 128)) 129);
      [vm_compute; reflexivity | lia]. }
  apply andb_true_iff in H as [H1 H2]. apply Z.eqb_eq in H1, H2.
  destruct (Size (mask_bytes 16 n)). simpl in *. congruence.
Qed.

(** With fewer than 96 ones, byte 11 of a 16-byte mask has its lowest bit
    clear. *)
Lemma mask_bytes_16_byte11 (n : Z) :
  0 <= n < 96 ->
  Z.testbit (default 0 (mask_bytes 16 n !! 11%nat)) 0 = false.
Proof.
  intros Hn.
  apply negb_true_iff.
  apply (Z_bounded_forall
           (fun n => negb (Z.testbit (default 0 (mask_bytes 16 n !! 11%nat)) 0))
           96);
    [vm_compute; reflexivity | lia].
Qed.

Lemma Mask_v4 a b c d (m : list Z) :
  length m = 4%nat ->
  Mask (As16 (Addr4 a b c d)) m = Some (zip_with Z.land [a; b; c; d] m).
Proof.
  intros Hm. do 5 (destruct m as [|? m]; try discriminate). reflexivity.
Qed.

Lemma Mask_v6 (l m : list Z) :
  length l = 16%nat -> length m = 16%nat ->
  Mask l m = Some (zip_with Z.land l m).
Proof.
  intros Hl Hm. unfold Mask, IPv4len, IPv6len.
  rewrite Hm, Hl. simpl. rewrite ?Hm, ?Hl.
  change (16 =? 4)%nat with false. simpl. rewrite Hl. reflexivity.
Qed.

Lemma As16_length (a : Addr) : length (As16 a) = 16%nat.
Proof. destruct a; reflexivity. Qed.

Lemma CIDRMask_ok (n bits : Z) :
  bits = 32 \/ bits = 128 -> 0 <= n <= bits ->
  CIDRMask n bits = Some (mask_bytes (Z.to_nat (bits / 8)) n).
Proof.
  intros Hbits Hn. unfold CIDRMask.
  destruct (negb (bits =? 32) && negb (bits =? 128)) eqn:Hb.
  - exfalso. apply andb_true_iff in Hb as [H1 H2].
    apply negb_true_iff, Z.eqb_neq in H1, H2. lia.
  - destruct ((n <? 0) || (bits <? n)) eqn:Hr; [|reflexivity].
    exfalso. apply orb_true_iff in Hr as [Hr|Hr]; apply Z.ltb_lt in Hr; lia.
Qed.

Lemma ParseCIDR_parsed (s : string) (ip0 : list Z) (ipnet : IPNet) :
  ParseCIDR s = Some (ip0, ipnet) -> parsed_cidr ipnet.
Proof.
  unfold ParseCIDR. intros H.
  apply bind_Some in H as ([a m] & _ & H).
  apply bind_Some in H as (ad & _ & H).
  apply bind_Some in H as ([n i] & _ & H).
  destruct (negb (i =? length m)%nat || (n <? 0) || (BitLen ad <? n)) eqn:Hc;
    [discriminate|].
  apply orb_false_iff in Hc as [Hc Hhi]. apply orb_false_iff in Hc as [_ Hlo].
  apply Z.ltb_ge in Hlo, Hhi.
  apply bind_Some in H as (mask & Hmask & H).
  apply bind_Some in H as (ip & Hip & H). injection H as <- <-.
  rewrite CIDRMask_ok in Hmask by (destruct ad; simpl in *; lia).
  injection Hmask as <-.
  destruct ad as [a0 b0 c0 d0|]; simpl BitLen in *.
  - change (Z.to_nat (32 / 8)) with 4%nat in *.
    rewrite Mask_v4 in Hip by apply length_mask_bytes.
    apply (inj Some) in Hip. subst ip. apply parsed_v4. lia.
  - change (Z.to_nat (128 / 8)) with 16%nat in *.
    rewrite Mask_v6 in Hip by (reflexivity || apply length_mask_bytes).
    apply (inj Some) in Hip. subst ip. apply parsed_v6; [reflexivity | lia].
Qed.

(** *** Bits under a mask *)

Lemma bit_b2z (a k : Z) :
  0 <= k -> Z.land (Z.shiftr a k) 1 = Z.b2z (Z.testbit a k).
Proof.
  intros Hk. change 1 with (Z.ones 1). rewrite Z.land_ones by lia.
  rewrite Z.shiftr_div_pow2 by lia. symmetry. by apply Z.testbit_spec'.
Qed.

(** Two bytes that agree under a mask agree in every bit the mask keeps. *)
Lemma masked_bit (a b m k : Z) :
  0 <= k -> Z.testbit m k = true -> Z.land a m = Z.land b m ->
  Z.land (Z.shiftr a k) 1 = Z.land (Z.shiftr b k) 1.
Proof.
  intros Hk Hm H. rewrite !bit_b2z by exact Hk. f_equal.
  apply (f_equal (fun z => Z.testbit z k)) in H.
  by rewrite !Z.land_spec, Hm, !andb_true_r in H.
Qed.

Lemma full_mask_bits (a b : Z) :
  Z.land a 255 = Z.land b 255 -> byte_bits a = byte_bits b.
Proof.
  intros H. unfold byte_bits. simpl.
  repeat (apply (f_equal2 cons);
          [apply (masked_bit _ _ 255); [lia | reflexivity | exact H]|]).
  reflexivity.
Qed.

Lemma partial_mask_bits (a b n : Z) :
  0 <= n < 8 ->
  Z.land a (Z.land (Z.lnot (Z.shiftr 255 n)) 255)
  = Z.land b (Z.land (Z.lnot (Z.shiftr 255 n)) 255) ->
  take (Z.to_nat n) (byte_bits a) = take (Z.to_nat n) (byte_bits b).
Proof.
  intros Hn H.
  assert (n = 0 \/ n = 1 \/ n = 2 \/ n = 3 \/ n = 4 \/ n = 5 \/ n = 6 \/ n = 7)
    as Hcases by lia.
  unfold byte_bits.
  destruct Hcases as [->|[->|[->|[->|[->|[->|[->| ->]]]]]]]; simpl take;
    repeat (apply (f_equal2 cons);
            [eapply masked_bit; [| |exact H]; [lia | reflexivity]|]);
    reflexivity.
Qed.

(** Two byte slices that agree under a mask of [n] ones agree in their
    first [n] bits. *)
Lemma masked_prefix (l : nat) (x y : list Z) (n : Z) :
  length x = l -> length y = l -> 0 <= n ->
  zip_with Z.land x (mask_bytes l n) = zip_with Z.land y (mask_bytes l n) ->
  take (Z.to_nat n) (bits_of x) = take (Z.to_nat n) (bits_of y).
Proof.
  revert x y n. induction l as [|l IH]; intros x y n Hx Hy Hn H.
  - destruct x, y; try discriminate. reflexivity.
  - destruct x as [|a x], y as [|b y]; try discriminate.
    injection Hx as Hx. injection Hy as Hy.
    rewrite !bits_of_cons. simpl in H.
    destruct (8 <=? n) eqn:Hge.
    + apply Z.leb_le in Hge. injection H as Hab H.
      rewrite !take_app_ge by (rewrite length_byte_bits; lia).
      rewrite !length_byte_bits, (full_mask_bits _ _ Hab). f_equal.
      replace (Z.to_nat n - 8)%nat with (Z.to_nat (n - 8)) by lia.
      apply IH; (assumption || lia).
    + apply Z.leb_gt in Hge. injection H as Hab _.
      rewrite !take_app_le by (rewrite length_byte_bits; lia).
      apply partial_mask_bits; [lia | exact Hab].
Qed.

(** *** Which parsed CIDRs [Insert] and [Delete] can walk *)

Lemma To4_length_4 (ip : list Z) : length ip = 4%nat -> To4 ip = Some ip.
Proof. intros H. unfold To4. rewrite H. reflexivity. Qed.

Lemma To4_Some_16 (ip x : list Z) :
  length ip = 16%nat -> To4 ip = Some x ->
  length x = 4%nat /\ ip !! 11%nat = Some 255.
Proof.
  intros Hlen. unfold To4. rewrite Hlen. simpl.
  destruct (isZeros (take 10 ip)); simpl; [|discriminate].
  destruct (default 0 (ip !! 10%nat) =? 255); simpl; [|discriminate].
  destruct (default 0 (ip !! 11%nat) =? 255) eqn:H11; simpl; [|discriminate].
  intros [= <-]. split.
  - rewrite length_take, length_drop. lia.
  - apply Z.eqb_eq in H11.
    destruct (ip !! 11%nat) as [v|] eqn:Hv; simpl in H11; [congruence|lia].
Qed.

Lemma ipToBytes_mapped (ip x : list Z) :
  length ip = 16%nat -> To4 ip = Some x -> ipToBytes ip = x.
Proof. intros _ H. unfold ipToBytes. by rewrite H. Qed.

(** A network number that is IPv4-mapped kept the two [ff] bytes, so its
    mask has at least 96 ones. *)
Lemma mapped_at_least_96 (l : list Z) (n : Z) :
  length l = 16%nat -> 0 <= n <= 128 ->
  is_Some (To4 (zip_with Z.land l (mask_bytes 16 n))) -> 96 <= n.
Proof.
  intros Hl Hn [x Hx].
  apply To4_Some_16 in Hx as [_ H11].
  2:{ rewrite length_zip_with, Hl, length_mask_bytes. reflexivity. }
  apply lookup_zip_with_Some in H11 as (v & m & Hvm & _ & Hm).
  destruct (decide (96 <= n)) as [|Hlt]; [assumption|exfalso].
  pose proof (mask_bytes_16_byte11 n ltac:(lia)) as Hbit.
  rewrite Hm in Hbit. change (default 0 (Some m)) with m in Hbit.
  apply (f_equal (fun z => Z.testbit z 0)) in Hvm.
  rewrite Z.land_spec, Hbit, andb_false_r in Hvm. discriminate.
Qed.

(** The numbers of a parsed CIDR that is not an IPv4-mapped IPv6 one:
    [ipToBytes] keeps the network number, the mask size is the prefix
    length over eight times the number of bytes, and [Delete] walks as
    many bits as [Insert]. *)
Lemma parsed_unmapped (ipnet : IPNet) :
  parsed_cidr ipnet -> ~ mapped_cidr ipnet ->
  ipToBytes (IP ipnet) = IP ipnet
  /\ length (IP ipnet) = length (IPMask ipnet)
  /\ IPMask ipnet
     = mask_bytes (length (IPMask ipnet)) (Z.of_nat (prefix_len ipnet))
  /\ (prefix_len ipnet <= 8 * length (IP ipnet))%nat
  /\ delete_len ipnet = prefix_len ipnet.
Proof.
  intros Hp Hnm. unfold prefix_len, delete_len, mapped_cidr in *.
  destruct Hp as [a b c d n Hn | l n Hl Hn]; cbn [IP IPMask] in *.
  - rewrite Size_mask_bytes_4 by exact Hn. cbn [fst snd].
    assert (length (zip_with Z.land [a; b; c; d] (mask_bytes 4 n)) = 4%nat)
      as Hlen by (rewrite length_zip_with, length_mask_bytes; reflexivity).
    rewrite (ipToBytes_v4 _ Hlen), Hlen, length_mask_bytes.
    split; [reflexivity|]. split; [reflexivity|].
    split; [by rewrite Z2Nat.id by lia|].
    split; [lia|]. destruct (n =? 32) eqn:E; [apply Z.eqb_eq in E|]; lia.
  - rewrite Size_mask_bytes_16 by exact Hn. cbn [fst snd].
    assert (length (zip_with Z.land l (mask_bytes 16 n)) = 16%nat)
      as Hlen by (rewrite length_zip_with, Hl, length_mask_bytes; reflexivity).
    assert (To4 (zip_with Z.land l (mask_bytes 16 n)) = None) as H4.
    { destruct (To4 _) eqn:E; [|reflexivity].
      exfalso. apply Hnm. split; [exact Hlen | eauto]. }
    rewrite (ipToBytes_v6 _ Hlen H4), Hlen, length_mask_bytes.
    split; [reflexivity|]. split; [reflexivity|].
    split; [by rewrite Z2Nat.id by lia|].
    split; [lia|]. destruct (n =? 128) eqn:E; [apply Z.eqb_eq in E|]; lia.
Qed.

(** [Insert] can walk a parsed CIDR exactly when it is not an IPv4-mapped
    IPv6 one. *)
Lemma walkable_iff_unmapped (ipnet : IPNet) :
  parsed_cidr ipnet -> walkable ipnet <-> ~ mapped_cidr ipnet.
Proof.
  intros Hp. split.
  - intros Hw [Hlen [x Hx]]. unfold walkable, prefix_len in Hw.
    rewrite (ipToBytes_mapped _ _ Hlen Hx), length_bits_of in Hw.
    destruct Hp as [a b c d n Hn | l n Hl Hn]; cbn [IP IPMask] in *.
    + rewrite length_zip_with, length_mask_bytes in Hlen. discriminate.
    + pose proof (mapped_at_least_96 l n Hl Hn ltac:(eauto)) as H96.
      apply To4_Some_16 in Hx as [Hx _]; [|exact Hlen].
      rewrite Size_mask_bytes_16 in Hw by exact Hn. cbn [fst] in Hw. lia.
  - intros Hnm.
    destruct (parsed_unmapped _ Hp Hnm) as (Hb & _ & _ & Hle & _).
    unfold walkable. by rewrite Hb, length_bits_of.
Qed.

End NetFacts.

(** ** Insert, lookup and Delete on CIDRs that are not IPv4-mapped *)

Section Unmapped.

(** [Insert] returns a parse error on text that does not parse, panics on
    an IPv4-mapped IPv6 CIDR, and succeeds on every other CIDR. *)
Lemma Insert_outcome t c md :
  match ParseCIDR c with
  | None => Insert t c md = Err InvalidCIDR
  | Some (_, ipnet) =>
      (mapped_cidr ipnet /\ Insert t c md = Panic)
      \/ (~ mapped_cidr ipnet
          /\ Insert t c md
             = Ok (mkIPTrie (insert_path (cidr_bits ipnet) (root t) c md)))
  end.
Proof.
  rewrite Insert_unfold.
  destruct (ParseCIDR c) as [[ip0 ipnet]|] eqn:Hparse; [|reflexivity].
  pose proof (walkable_iff_unmapped _ (ParseCIDR_parsed _ _ _ Hparse)) as Hw.
  case_decide as H.
  - right. split; [by apply Hw | reflexivity].
  - left. split; [|reflexivity].
    destruct (decide (length (IP ipnet) = 16%nat)) as [H16|H16].
    + destruct (To4 (IP ipnet)) as [x|] eqn:Hx; [split; eauto|].
      exfalso. apply H, Hw. intros [_ [y Hy]]. congruence.
    + exfalso. apply H, Hw. intros [? _]. contradiction.
Qed.

(** [IPNet.Contains] compares the network number with the bytes that
    [ipToBytes] gives for the address, under the mask. *)
Lemma Contains_same_width (nn m ip : list Z) :
  length nn = 4%nat \/ (length nn = 16%nat /\ To4 nn = None) ->
  length m = length nn -> length ip = 16%nat ->
  Contains (mkIPNet nn m) ip = true ->
  length (ipToBytes ip) = length nn
  /\ zip_with Z.land nn m = zip_with Z.land (ipToBytes ip) m.
Proof.
  intros Hnn Hm Hip. unfold Contains, networkNumberAndMask, IPv4len, IPv6len.
  cbn [IP IPMask].
  destruct Hnn as [H4 | [H16 Hnone]].
  - rewrite (To4_length_4 _ H4). simpl. rewrite Hm, H4. simpl.
    destruct (To4 ip) as [x|] eqn:Hx; simpl.
    + rewrite (ipToBytes_mapped _ _ Hip Hx). intros Hc.
      apply andb_true_iff in Hc as [Hc1 Hc2].
      apply Nat.eqb_eq in Hc1. apply bool_decide_eq_true_1 in Hc2.
      split; [congruence | exact Hc2].
    + rewrite Hip, ?H4. discriminate.
  - rewrite Hnone, H16. simpl. rewrite Hm, H16. simpl.
    destruct (To4 ip) as [x|] eqn:Hx; simpl.
    + apply To4_Some_16 in Hx as [Hx _]; [|exact Hip].
      rewrite Hx, ?H16. discriminate.
    + rewrite (ipToBytes_v6 _ Hip Hx). intros Hc.
      apply andb_true_iff in Hc as [_ Hc2].
      apply bool_decide_eq_true_1 in Hc2. split; [congruence | exact Hc2].
Qed.

(** An address that [IPNet.Contains] accepts starts with the bits of the
    CIDR. *)
Lemma Contains_prefix (ipnet : IPNet) (ip : list Z) :
  parsed_cidr ipnet -> ~ mapped_cidr ipnet -> length ip = 16%nat ->
  Contains ipnet ip = true ->
  cidr_bits ipnet `prefix_of` addr_bits ip.
Proof.
  intros Hp Hnm Hip Hc.
  destruct (parsed_unmapped _ Hp Hnm) as (Hb & Hlen & Hmask & Hle & _).
  assert (length (IP ipnet) = 4%nat
          \/ (length (IP ipnet) = 16%nat /\ To4 (IP ipnet) = None)) as Hw.
  { unfold mapped_cidr in Hnm.
    destruct Hp as [a b c d n Hn | l n Hl Hn]; cbn [IP IPMask] in *.
    - left. rewrite length_zip_with, length_mask_bytes. reflexivity.
    - right.
      assert (length (zip_with Z.land l (mask_bytes 16 n)) = 16%nat)
        as H16 by (rewrite length_zip_with, Hl, length_mask_bytes; reflexivity).
      split; [exact H16|].
      destruct (To4 _) eqn:E; [|reflexivity].
      exfalso. apply Hnm. split; [exact H16 | eauto]. }
  destruct ipnet as [nn m]. cbn [IP IPMask] in *.
  destruct (Contains_same_width nn m ip Hw (eq_sym Hlen) Hip Hc) as [Hl Heq].
  unfold cidr_bits, addr_bits. cbn [IP]. rewrite Hb.
  rewrite Hmask in Heq.
  apply masked_prefix in Heq; [|lia..].
  rewrite Nat2Z.id in Heq. rewrite Heq. apply prefix_take.
Qed.

(** A trie that holds one registration returns it for every address that
    starts with its bits. *)
Lemma Find_single p s0 md (t : IPTrie) (s : string) (ip : list Z) :
  (forall q, reg (root t) q = if decide (q = p) then Some (s0, md) else None) ->
  ParseIP s = Some ip -> p `prefix_of` addr_bits ip ->
  Find t s = Ok (s0, md).
Proof.
  intros Hreg Hparse Hp.
  destruct (Find_returns_longest t s ip Hparse) as (q & e & Hfind & _ & He & _).
  { exists p. split; [exact Hp|]. rewrite Hreg. by rewrite decide_True. }
  rewrite Hfind. f_equal. rewrite Hreg in He.
  destruct (decide (q = p)); congruence.
Qed.

(** The round trip, for every CIDR that is not an IPv4-mapped IPv6 one:
    [Insert] into a new trie succeeds, and [Find] of any address inside the
    CIDR returns its text and metadata. *)
Lemma Insert_Find_roundtrip c md ip0 ipnet a ip :
  ParseCIDR c = Some (ip0, ipnet) -> ~ mapped_cidr ipnet ->
  ParseIP a = Some ip -> Contains ipnet ip = true ->
  exists t, Insert NewIPTrie c md = Ok t /\ Find t a = Ok (c, md).
Proof.
  intros Hparse Hnm Ha Hc.
  pose proof (Insert_outcome NewIPTrie c md) as Hins. rewrite Hparse in Hins.
  destruct Hins as [[Hm _] | [_ Hins]]; [contradiction|].
  eexists. split; [exact Hins|].
  apply (Find_single (cidr_bits ipnet) c md _ a ip).
  - intros q. simpl. rewrite reg_insert_path by apply Forall_isbit_cidr_bits.
    case_decide; [reflexivity | apply reg_newNode].
  - exact Ha.
  - apply Contains_prefix; try assumption.
    + eapply ParseCIDR_parsed; eauto.
    + eapply ParseIP_length; eauto.
Qed.

(** [Delete], for every CIDR that is not an IPv4-mapped IPv6 one: it walks
    the bits that [Insert] walks; it returns the not-found error exactly
    when no registration sits at that path; otherwise it succeeds, removes
    that registration and no other, a second [Delete] returns the
    not-found error, and [Find] returns the not-found error for every
    address that no other registered prefix covers. *)
Lemma Delete_exact t c ip0 ipnet :
  ParseCIDR c = Some (ip0, ipnet) -> ~ mapped_cidr ipnet ->
  (Delete t c = Err CIDRNotFound <-> reg (root t) (cidr_bits ipnet) = None)
  /\ (is_Some (reg (root t) (cidr_bits ipnet)) ->
      exists t',
        Delete t c = Ok t'
        /\ (forall q, reg (root t') q
                      = if decide (q = cidr_bits ipnet) then None
                        else reg (root t) q)
        /\ Delete t' c = Err CIDRNotFound
        /\ forall s ip,
            ParseIP s = Some ip ->
            (forall q, q `prefix_of` addr_bits ip -> q <> cidr_bits ipnet ->
                       reg (root t) q = None) ->
            Find t' s = Err NoMatch).
Proof.
  intros Hparse Hnm.
  pose proof (ParseCIDR_parsed _ _ _ Hparse) as Hp.
  destruct (parsed_unmapped _ Hp Hnm) as (Hb & _ & _ & Hle & Hdl).
  assert (delete_bits ipnet = cidr_bits ipnet) as Hbits
    by (unfold delete_bits, cidr_bits; by rewrite Hdl).
  assert (delete_len ipnet <= length (bits_of (ipToBytes (IP ipnet))))%nat
    as Hin by (rewrite Hdl, Hb, length_bits_of; exact Hle).
  assert (forall t0, Delete t0 c
                     = match delete_path (cidr_bits ipnet) (root t0) with
                       | Some r => Ok (mkIPTrie r)
                       | None => Err CIDRNotFound
                       end) as Hdel.
  { intros t0. rewrite (Delete_unfold _ _ _ _ Hparse Hin), Hbits. reflexivity. }
  split.
  - rewrite Hdel, <- delete_path_None.
    destruct (delete_path _ _); split; congruence.
  - intros Hsome. rewrite Hdel.
    destruct (delete_path (cidr_bits ipnet) (root t)) as [r|] eqn:Hd.
    2:{ apply delete_path_None in Hd. rewrite Hd in Hsome.
        by destruct Hsome. }
    exists (mkIPTrie r). split; [reflexivity|]. split.
    { intros q. apply (reg_delete_path _ _ _ _ (Forall_isbit_cidr_bits ipnet) Hd). }
    split.
    { rewrite Hdel. simpl.
      assert (delete_path (cidr_bits ipnet) r = None) as ->; [|reflexivity].
      apply delete_path_None.
      rewrite (reg_delete_path _ _ _ _ (Forall_isbit_cidr_bits ipnet) Hd).
      by rewrite decide_True. }
    intros s ip Hs Hnone. rewrite Find_unfold, Hs, matches_eq_nil; [reflexivity|].
    intros q Hq. simpl.
    rewrite (reg_delete_path _ _ _ _ (Forall_isbit_cidr_bits ipnet) Hd).
    case_decide; [reflexivity | by apply Hnone].
Qed.

End Unmapped.

(** ** IPv4-mapped IPv6 prefixes *)

(** C4.  The claim fails on the code.  [ParseCIDR] accepts
    [::ffff:1.2.3.4/128] with 128 ones of 128 bits and a 16-byte network
    number; [ipToBytes] turns that number into the 4 bytes [1.2.3.4]; the
    loop of [Insert] asks for bit 32 of them, [ipBytes[4]], and panics. *)
Theorem Insert_mapped_cidr_panics :
  (exists ip0 ipnet,
      ParseCIDR "::ffff:1.2.3.4/128" = Some (ip0, ipnet)
      /\ Size (IPMask ipnet) = (128, 128)
      /\ IP ipnet = v4InV6Prefix ++ [1; 2; 3; 4]
      /\ ipToBytes (IP ipnet) = [1; 2; 3; 4]
      /\ bit_at (ipToBytes (IP ipnet)) 32 = None)
  /\ Insert NewIPTrie "::ffff:1.2.3.4/128" md_wide = Panic.
Proof.
  split; [|vm_compute; reflexivity].
  eexists _, _. split; [reflexivity|]. repeat split.
Qed.

(** C5.  The claim fails on the code, by the defect of C4: the address
    [1.2.3.4] lies inside [::ffff:1.2.3.4/128] ([IPNet.Contains] says so),
    and [Insert] of that CIDR into a new trie panics, so that no [Find]
    follows. *)
Theorem roundtrip_mapped_cidr_panics :
  (exists ip0 ipnet a,
      ParseCIDR "::ffff:1.2.3.4/128" = Some (ip0, ipnet)
      /\ ParseIP "1.2.3.4" = Some a
      /\ Contains ipnet a = true)
  /\ (t ← Insert NewIPTrie "::ffff:1.2.3.4/128" md_wide; Find t "1.2.3.4")
     = Panic.
Proof.
  split; [|vm_compute; reflexivity].
  eexists _, _, _. split; [reflexivity|]. split; [reflexivity|].
  vm_compute. reflexivity.
Qed.

(** C6.  The claim fails on the code, by the defect of C4: in the trie
    that holds [102:300::/40] alone, no registration has the 120 bits of
    [::ffff:1.2.3.0/120], yet [Delete] of that CIDR does not return the
    not-found error: it walks the 32 bits of [1.2.3.0] along the existing
    path, asks for [ipBytes[4]], and panics. *)
Theorem Delete_mapped_cidr_panics :
  after [OpInsert "102:300::/40" md_wide] = Some v6_0102_0300
  /\ (exists ip0 ipnet,
         ParseCIDR "::ffff:1.2.3.0/120" = Some (ip0, ipnet)
         /\ Size (IPMask ipnet) = (120, 128)
         /\ ipToBytes (IP ipnet) = [1; 2; 3; 0])
  /\ (forall q, is_Some (reg (root v6_0102_0300) q) -> length q = 40%nat)
  /\ Delete v6_0102_0300 "::ffff:1.2.3.0/120" = Panic.
Proof.
  split; [vm_compute; reflexivity|]. split.
  { eexists _, _. split; [reflexivity|]. split; reflexivity. }
  split; [|vm_compute; reflexivity].
  assert (Insert NewIPTrie "102:300::/40" md_wide = Ok v6_0102_0300) as Hins
    by (vm_compute; reflexivity).
  apply Insert_Ok_effect in Hins as (ip0 & ipnet & Hparse & _ & Hreg).
  injection Hparse as <- <-.
  intros q [e He]. rewrite Hreg in He. case_decide as Hq.
  - subst q. reflexivity.
  - simpl in He. rewrite reg_newNode in He. discriminate.
Qed.

(** * Further properties of the package *)

(** ** [Insert] *)

Section InsertFacts.

Implicit Types (node c : Node) (b : Z) (p q : list Z).

Lemma set_child_set_child node b c1 c2 :
  set_child (set_child node b c1) b c2 = set_child node b c2.
Proof.
  unfold set_child. destruct (b =? 0); [reflexivity|].
  destruct (b =? 1); reflexivity.
Qed.

Lemma set_child_comm node b1 b2 c1 c2 :
  b1 <> b2 ->
  set_child (set_child node b1 c1) b2 c2
  = set_child (set_child node b2 c2) b1 c1.
Proof.
  intros Hne. unfold set_child.
  destruct (b1 =? 0) eqn:E10, (b2 =? 0) eqn:E20;
    destruct (b1 =? 1) eqn:E11, (b2 =? 1) eqn:E21;
    try reflexivity;
    repeat match goal with
           | H : (_ =? _) = true |- _ => apply Z.eqb_eq in H
           end; lia.
Qed.

Lemma mark_set_child node b c s md :
  mark (set_child node b c) s md = set_child (mark node s md) b c.
Proof.
  unfold mark, set_child. destruct (b =? 0); [reflexivity|].
  destruct (b =? 1); reflexivity.
Qed.

(** A second [Insert] along the same path replaces what the first one
    stored and changes nothing else. *)
Lemma insert_path_twice p node s1 md1 s2 md2 :
  Forall isbit p ->
  insert_path p (insert_path p node s1 md1) s2 md2 = insert_path p node s2 md2.
Proof.
  intros Hp. revert node. induction Hp as [|b p Hb Hp IH]; intros node.
  - reflexivity.
  - cbn [insert_path]. rewrite children_set_child by exact Hb.
    rewrite decide_True by reflexivity. cbn [from_option id].
    rewrite IH. apply set_child_set_child.
Qed.

(** Insertions along different paths can be swapped. *)
Lemma insert_path_comm p q node s1 md1 s2 md2 :
  Forall isbit p -> Forall isbit q -> p <> q ->
  insert_path p (insert_path q node s2 md2) s1 md1
  = insert_path q (insert_path p node s1 md1) s2 md2.
Proof.
  intros Hp. revert q node.
  induction Hp as [|b p Hb Hp IH]; intros q node Hq Hne.
  - destruct Hq as [|b' q Hb' Hq]; [congruence|].
    cbn [insert_path]. rewrite children_mark. apply mark_set_child.
  - destruct Hq as [|b' q Hb' Hq].
    + cbn [insert_path]. rewrite children_mark. symmetry. apply mark_set_child.
    + cbn [insert_path]. rewrite !children_set_child by assumption.
      destruct (decide (b = b')) as [->|Hbb].
      * rewrite !decide_True by reflexivity. cbn [from_option id].
        rewrite !set_child_set_child. f_equal. apply IH; [exact Hq|congruence].
      * rewrite !decide_False by congruence.
        apply set_child_comm. congruence.
Qed.

End InsertFacts.

(** X1.  [Insert] returns the parse error exactly on text that does not parse,
    panics exactly on a CIDR whose 16-byte network number is IPv4-mapped,
    and succeeds on every other CIDR; it has no other outcome. *)
Theorem Insert_outcomes (t : IPTrie) (c : string) (md : gmap string Value) :
  (Insert t c md = Err InvalidCIDR <-> ParseCIDR c = None)
  /\ (Insert t c md = Panic <->
      exists ip0 ipnet, ParseCIDR c = Some (ip0, ipnet) /\ mapped_cidr ipnet)
  /\ ((exists t', Insert t c md = Ok t') <->
      exists ip0 ipnet, ParseCIDR c = Some (ip0, ipnet) /\ ~ mapped_cidr ipnet)
  /\ (forall e, Insert t c md = Err e -> e = InvalidCIDR).
Proof.
  pose proof (Insert_outcome t c md) as H.
  destruct (ParseCIDR c) as [[ip0 ipnet]|] eqn:Hparse.
  - destruct H as [[Hm H] | [Hm H]]; rewrite H.
    + split; [split; discriminate|]. split; [split; eauto|].
      split; [|discriminate]. split; [intros [? ?]; discriminate|].
      intros (? & ? & [= <- <-] & ?). contradiction.
    + split; [split; discriminate|]. split.
      { split; [discriminate|]. intros (? & ? & [= <- <-] & ?). contradiction. }
      split; [|discriminate]. split; eauto.
  - rewrite H. split; [done|]. split.
    { split; [discriminate | intros (? & ? & ? & _); discriminate]. }
    split; [|by intros e [= <-]].
    split; [intros [? ?]; discriminate | intros (? & ? & ? & _); discriminate].
Qed.

(** X2.  A successful [Insert] stores its text and metadata at one path and
    changes no other registration: lookups of addresses that the path does
    not cover return what they returned before, and lookups of addresses
    that it covers succeed and list the new entry. *)
Theorem Insert_frame (t : IPTrie) (c : string) (md : gmap string Value)
        (t' : IPTrie) :
  Insert t c md = Ok t' ->
  exists p,
    reg (root t') p = Some (c, md)
    /\ (forall q, q <> p -> reg (root t') q = reg (root t) q)
    /\ (forall s ip, ParseIP s = Some ip -> ~ p `prefix_of` addr_bits ip ->
          Find t' s = Find t s /\ FindAll t' s = FindAll t s)
    /\ (forall s ip, ParseIP s = Some ip -> p `prefix_of` addr_bits ip ->
          (exists e, Find t' s = Ok e)
          /\ exists l, FindAll t' s = Ok l /\ (c, md) ∈ l).
Proof.
  intros Hins. apply Insert_Ok_effect in Hins as (ip0 & ipnet & _ & _ & Hreg).
  exists (cidr_bits ipnet).
  assert (reg (root t') (cidr_bits ipnet) = Some (c, md)) as Hhere
    by (rewrite Hreg; by rewrite decide_True).
  split; [exact Hhere|]. split.
  { intros q Hq. rewrite Hreg. by rewrite decide_False. }
  split.
  - intros s ip Hparse Hp.
    assert (matches (root t') (addr_bits ip) = matches (root t) (addr_bits ip))
      as Hm.
    { apply omap_ext_in. intros q Hq. rewrite Hreg.
      rewrite decide_False; [reflexivity|].
      intros ->. by apply Hp, elem_of_prefixes. }
    by rewrite !Find_unfold, !FindAll_unfold, Hparse, Hm.
  - intros s ip Hparse Hp. split.
    + destruct (Find_returns_longest t' s ip Hparse) as (q & e & Hfind & _).
      * exists (cidr_bits ipnet). split; [exact Hp | by rewrite Hhere].
      * eauto.
    + exists (matches (root t') (addr_bits ip)).
      split; [by rewrite FindAll_unfold, Hparse|].
      apply list_elem_of_omap. exists (cidr_bits ipnet).
      split; [by apply elem_of_prefixes | exact Hhere].
Qed.

Lemma Insert_frame_witness :
  exists p,
    reg (root overlapping) p = Some ("192.168.1.0/24", md_narrow)
    /\ (forall q, q <> p ->
          reg (root overlapping) q
          = reg (root (trie_of [OpInsert "192.168.0.0/16" md_wide])) q)
    /\ (forall s ip, ParseIP s = Some ip -> ~ p `prefix_of` addr_bits ip ->
          Find overlapping s
          = Find (trie_of [OpInsert "192.168.0.0/16" md_wide]) s
          /\ FindAll overlapping s
             = FindAll (trie_of [OpInsert "192.168.0.0/16" md_wide]) s)
    /\ (forall s ip, ParseIP s = Some ip -> p `prefix_of` addr_bits ip ->
          (exists e, Find overlapping s = Ok e)
          /\ exists l, FindAll overlapping s = Ok l
                       /\ ("192.168.1.0/24", md_narrow) ∈ l).
Proof.
  apply (Insert_frame (trie_of [OpInsert "192.168.0.0/16" md_wide])
           "192.168.1.0/24" md_narrow overlapping).
  vm_compute. reflexivity.
Defined.

(** X3.  Two CIDR texts with the same prefix bits share one node: the later
    [Insert] overwrites the text and metadata of the earlier one, and the
    trie is the one that the later [Insert] alone would have built. *)
Theorem Insert_overwrites (t t1 : IPTrie) (c1 c2 : string)
        (md1 md2 : gmap string Value) (ip1 ip2 : list Z) (n1 n2 : IPNet) :
  ParseCIDR c1 = Some (ip1, n1) ->
  ParseCIDR c2 = Some (ip2, n2) ->
  cidr_bits n1 = cidr_bits n2 ->
  Insert t c1 md1 = Ok t1 ->
  Insert t1 c2 md2 = Insert t c2 md2.
Proof.
  intros H1 H2 Hbits. rewrite !Insert_unfold, H1, H2.
  case_decide; [|discriminate]. intros [= <-]. cbn [root].
  case_decide; [|reflexivity].
  rewrite Hbits, insert_path_twice by apply Forall_isbit_cidr_bits.
  reflexivity.
Qed.

Lemma Insert_overwrites_witness :
  Insert (trie_of [OpInsert "10.1.2.3/8" md_narrow]) ten_8 md_wide
  = Insert NewIPTrie ten_8 md_wide
  /\ Find (trie_of [OpInsert "10.1.2.3/8" md_narrow; OpInsert ten_8 md_wide])
          "10.9.9.9" = Ok (ten_8, md_wide)
  /\ Find (trie_of [OpInsert "10.1.2.3/8" md_narrow]) "10.9.9.9"
     = Ok ("10.1.2.3/8", md_narrow).
Proof.
  split; [|split; vm_compute; reflexivity].
  apply (Insert_overwrites NewIPTrie (trie_of [OpInsert "10.1.2.3/8" md_narrow])
           "10.1.2.3/8" ten_8 md_narrow md_wide
           (v4InV6Prefix ++ [10; 1; 2; 3]) (v4InV6Prefix ++ [10; 0; 0; 0])
           (mkIPNet [10; 0; 0; 0] [255; 0; 0; 0])
           (mkIPNet [10; 0; 0; 0] [255; 0; 0; 0])).
  - reflexivity.
  - reflexivity.
  - reflexivity.
  - vm_compute. reflexivity.
Defined.

(** X4.  Two [Insert]s of CIDRs with different prefix bits give the same
    result in either order. *)
Theorem Insert_commutes (t : IPTrie) (c1 c2 : string)
        (md1 md2 : gmap string Value) (ip1 ip2 : list Z) (n1 n2 : IPNet) :
  ParseCIDR c1 = Some (ip1, n1) ->
  ParseCIDR c2 = Some (ip2, n2) ->
  cidr_bits n1 <> cidr_bits n2 ->
  (t1 ← Insert t c1 md1; Insert t1 c2 md2)
  = (t2 ← Insert t c2 md2; Insert t2 c1 md1).
Proof.
  intros H1 H2 Hne. rewrite (Insert_unfold t c1), (Insert_unfold t c2), H1, H2.
  destruct (decide (walkable n1)) as [Hw1|Hw1],
           (decide (walkable n2)) as [Hw2|Hw2]; cbn [mbind result_bind];
    rewrite ?Insert_unfold, ?H1, ?H2;
    rewrite ?(decide_True _ _ Hw1), ?(decide_False _ _ Hw1),
            ?(decide_True _ _ Hw2), ?(decide_False _ _ Hw2);
    try reflexivity.
  cbn [root]. do 2 f_equal.
  apply insert_path_comm; try apply Forall_isbit_cidr_bits. congruence.
Qed.

Lemma Insert_commutes_witness :
  (t1 ← Insert NewIPTrie "192.168.0.0/16" md_wide;
   Insert t1 "192.168.1.0/24" md_narrow)
  = (t2 ← Insert NewIPTrie "192.168.1.0/24" md_narrow;
     Insert t2 "192.168.0.0/16" md_wide).
Proof.
  apply (Insert_commutes NewIPTrie "192.168.0.0/16" "192.168.1.0/24"
           md_wide md_narrow
           (v4InV6Prefix ++ [192; 168; 0; 0]) (v4InV6Prefix ++ [192; 168; 1; 0])
           (mkIPNet [192; 168; 0; 0] [255; 255; 0; 0])
           (mkIPNet [192; 168; 1; 0] [255; 255; 255; 0])).
  - reflexivity.
  - reflexivity.
  - vm_compute. discriminate.
Defined.

(** ** Lookups *)

Lemma ipToBytes_length (ip : list Z) :
  length ip = 16%nat ->
  length (ipToBytes ip) = 4%nat \/ length (ipToBytes ip) = 16%nat.
Proof.
  intros Hip. destruct (To4 ip) as [x|] eqn:Hx.
  - left. rewrite (ipToBytes_mapped _ _ Hip Hx).
    by apply To4_Some_16 in Hx as [Hx _].
  - right. by rewrite (ipToBytes_v6 _ Hip Hx).
Qed.

Lemma length_omap_le {A B} (f : A -> option B) (l : list A) :
  (length (omap f l) <= length l)%nat.
Proof.
  induction l as [|x l IH]; [reflexivity|].
  rewrite omap_cons_list, length_app. destruct (f x); simpl; lia.
Qed.

(** X5.  [Find] and [FindAll] never index [ipBytes] out of range and never
    report a CIDR error: [Find] returns an entry, the invalid-address error
    or the not-found error, [FindAll] returns the invalid-address error or
    a list of at most 129 entries (one per node of a walk of at most 128
    bits from the root). *)
Theorem lookups_return (t : IPTrie) (s : string) :
  (Find t s = Err InvalidIP \/ Find t s = Err NoMatch
   \/ exists e, Find t s = Ok e)
  /\ (FindAll t s = Err InvalidIP
      \/ exists l, FindAll t s = Ok l /\ (length l <= 129)%nat).
Proof.
  rewrite Find_unfold, FindAll_unfold.
  destruct (ParseIP s) as [ip|] eqn:Hparse; [|by split; left].
  split.
  - destruct (last _); [right; right; eauto | right; by left].
  - right. eexists. split; [reflexivity|].
    etrans; [apply length_omap_le|].
    rewrite length_prefixes. unfold addr_bits. rewrite length_bits_of.
    destruct (ipToBytes_length ip (ParseIP_length _ _ Hparse)) as [-> | ->]; lia.
Qed.

(** X6.  The round trip: for every CIDR that parses and is not an IPv4-mapped
    IPv6 one, and every address that [IPNet.Contains] puts inside it,
    [Insert] into a new trie succeeds and [Find] of the address returns the
    text given to [Insert] and its metadata. *)
Theorem Insert_then_Find_inside (c : string) (md : gmap string Value)
        (ip0 : list Z) (ipnet : IPNet) (a : string) (ip : list Z) :
  ParseCIDR c = Some (ip0, ipnet) ->
  ~ mapped_cidr ipnet ->
  ParseIP a = Some ip ->
  Contains ipnet ip = true ->
  exists t, Insert NewIPTrie c md = Ok t /\ Find t a = Ok (c, md).
Proof. apply Insert_Find_roundtrip. Qed.

Lemma Insert_then_Find_inside_witness :
  exists t, Insert NewIPTrie "192.168.1.77/24" md_narrow = Ok t
            /\ Find t "192.168.1.255" = Ok ("192.168.1.77/24", md_narrow).
Proof.
  apply (Insert_then_Find_inside "192.168.1.77/24" md_narrow
           (v4InV6Prefix ++ [192; 168; 1; 77])
           (mkIPNet [192; 168; 1; 0] [255; 255; 255; 0])
           "192.168.1.255" (v4InV6Prefix ++ [192; 168; 1; 255])).
  - reflexivity.
  - intros [H _]. discriminate H.
  - reflexivity.
  - vm_compute. reflexivity.
Defined.

(** ** [Delete] *)

(** X7.  For every CIDR that parses and is not an IPv4-mapped IPv6 one,
    [Delete] returns the not-found error exactly when no registration sits
    at the CIDR's prefix bits; otherwise it succeeds, removes that
    registration and no other, a second [Delete] returns the not-found
    error, and [Find] returns the not-found error for every address that
    no other registered prefix covers. *)
Theorem Delete_exact_registration (t : IPTrie) (c : string) (ip0 : list Z)
        (ipnet : IPNet) :
  ParseCIDR c = Some (ip0, ipnet) ->
  ~ mapped_cidr ipnet ->
  (Delete t c = Err CIDRNotFound <-> reg (root t) (cidr_bits ipnet) = None)
  /\ (is_Some (reg (root t) (cidr_bits ipnet)) ->
      exists t',
        Delete t c = Ok t'
        /\ (forall q, reg (root t') q
                      = if decide (q = cidr_bits ipnet) then None
                        else reg (root t) q)
        /\ Delete t' c = Err CIDRNotFound
        /\ forall s ip,
            ParseIP s = Some ip ->
            (forall q, q `prefix_of` addr_bits ip -> q <> cidr_bits ipnet ->
                       reg (root t) q = None) ->
            Find t' s = Err NoMatch).
Proof. apply Delete_exact. Qed.

Lemma Delete_exact_registration_witness :
  Delete nested ten_1_16 = Ok nested_deleted
  /\ Delete nested_deleted ten_1_16 = Err CIDRNotFound
  /\ Delete nested "10.1.0.0/17" = Err CIDRNotFound
  /\ ((Delete nested ten_1_16 = Err CIDRNotFound
       <-> reg (root nested)
             (cidr_bits (mkIPNet [10; 1; 0; 0] [255; 255; 0; 0])) = None)
      /\ (is_Some (reg (root nested)
                     (cidr_bits (mkIPNet [10; 1; 0; 0] [255; 255; 0; 0]))) ->
          exists t',
            Delete nested ten_1_16 = Ok t'
            /\ (forall q,
                   reg (root t') q
                   = if decide
                          (q = cidr_bits (mkIPNet [10; 1; 0; 0] [255; 255; 0; 0]))
                     then None else reg (root nested) q)
            /\ Delete t' ten_1_16 = Err CIDRNotFound
            /\ forall s ip,
                ParseIP s = Some ip ->
                (forall q, q `prefix_of` addr_bits ip ->
                           q <> cidr_bits (mkIPNet [10; 1; 0; 0] [255; 255; 0; 0]) ->
                           reg (root nested) q = None) ->
                Find t' s = Err NoMatch)).
Proof.
  split; [vm_compute; reflexivity|]. split; [vm_compute; reflexivity|].
  split; [vm_compute; reflexivity|].
  apply (Delete_exact_registration nested ten_1_16
           (v4InV6Prefix ++ [10; 1; 0; 0])
           (mkIPNet [10; 1; 0; 0] [255; 255; 0; 0])).
  - reflexivity.
  - intros [H _]. discriminate H.
Defined.

(** ** Unmarked nodes carry no text and no metadata *)

Section Clean.

Implicit Types (node c : Node) (b : Z) (p q : list Z).

Lemma clean_unfold node :
  clean node
  <-> (isEnd node = false -> metadata node = ∅ /\ cidr node = "")
      /\ from_option clean True (child0 node)
      /\ from_option clean True (child1 node).
Proof. destruct node as [[?|] [?|] ? ? ?]; reflexivity. Qed.

Lemma clean_newNode : clean newNode.
Proof. simpl. tauto. Qed.

Lemma clean_children node b c :
  clean node -> children node b = Some c -> clean c.
Proof.
  rewrite clean_unfold. intros (_ & H0 & H1) Hc.
  apply children_cases in Hc as [Hc | Hc]; rewrite Hc in *; assumption.
Qed.

Lemma clean_default node b :
  clean node -> clean (default newNode (children node b)).
Proof.
  intros H. destruct (children node b) as [c|] eqn:Hc; simpl.
  - eapply clean_children; eauto.
  - tauto.
Qed.

Lemma clean_set_child node b c :
  clean node -> clean c -> clean (set_child node b c).
Proof.
  rewrite !clean_unfold. intros (He & H0 & H1) Hc. unfold set_child.
  destruct (b =? 0); [simpl; by rewrite clean_unfold|].
  destruct (b =? 1); simpl; by rewrite ?clean_unfold.
Qed.

Lemma clean_del_child node b : clean node -> clean (del_child node b).
Proof.
  rewrite !clean_unfold. intros (He & H0 & H1). unfold del_child.
  destruct (b =? 0); [done|]. destruct (b =? 1); done.
Qed.

Lemma clean_reattach parent b child :
  clean parent -> clean child -> clean (reattach parent b child).
Proof.
  intros Hp Hc. unfold reattach. destruct (dead child);
    [by apply clean_del_child | by apply clean_set_child].
Qed.

Lemma clean_mark node s md : clean node -> clean (mark node s md).
Proof.
  rewrite !clean_unfold. intros (_ & H0 & H1). simpl.
  split; [discriminate | done].
Qed.

Lemma clean_unmark node : clean node -> clean (unmark node).
Proof. rewrite !clean_unfold. intros (_ & H0 & H1). simpl. done. Qed.

Lemma clean_insert_path p node s md :
  clean node -> clean (insert_path p node s md).
Proof.
  revert node. induction p as [|b p IH]; intros node H; cbn [insert_path].
  - by apply clean_mark.
  - apply clean_set_child; [exact H|]. apply IH, clean_default, H.
Qed.

Lemma clean_delete_path p node node' :
  clean node -> delete_path p node = Some node' -> clean node'.
Proof.
  revert node node'. induction p as [|b p IH]; intros node node' H; simpl.
  - destruct (isEnd node); [|discriminate]. intros [= <-].
    by apply clean_unmark.
  - destruct (children node b) as [c|] eqn:Hc; simpl; [|discriminate].
    destruct (delete_path p c) as [c'|] eqn:Hd; simpl; [|discriminate].
    intros [= <-]. apply clean_reattach; [exact H|].
    eapply IH; [|exact Hd]. eapply clean_children; eauto.
Qed.

Lemma clean_descend node p nd :
  clean node -> descend node p = Some nd -> clean nd.
Proof.
  revert node. induction p as [|b p IH]; intros node H Hd.
  - by injection Hd as <-.
  - apply descend_cons_Some in Hd as (c & Hc & Hd).
    eapply IH; [|exact Hd]. eapply clean_children; eauto.
Qed.

Lemma run_clean t o t' : clean (root t) -> run t o = Some t' -> clean (root t').
Proof.
  intros H. destruct o as [c md | ip | ip | c]; simpl.
  - rewrite Insert_unfold. destruct (ParseCIDR c) as [[ip0 ipnet]|].
    + case_decide; [|discriminate]. intros [= <-]. simpl.
      by apply clean_insert_path.
    + by intros [= <-].
  - destruct (Find t ip); [| |discriminate]; by intros [= <-].
  - destruct (FindAll t ip); [| |discriminate]; by intros [= <-].
  - destruct (Delete t c) as [t1| |] eqn:Hd; [| |discriminate].
    + intros [= <-]. apply Delete_Ok_inv in Hd as (ip0 & ipnet & _ & _ & Hd).
      eapply clean_delete_path; eauto.
    + by intros [= <-].
Qed.

Lemma reachable_clean t : reachable t -> clean (root t).
Proof.
  induction 1 as [|t o t' _ IH Hrun]; [apply clean_newNode|].
  eapply run_clean; eauto.
Qed.

(** A node without children, mark, text and metadata is a new node. *)
Lemma dead_clean_newNode node : dead node = true -> clean node -> node = newNode.
Proof.
  unfold dead, len_children. destruct node as [[?|] [?|] e md s]; simpl;
    try discriminate.
  intros He (Hf & _). destruct e; [discriminate|].
  destruct (Hf eq_refl) as [-> ->]. reflexivity.
Qed.

Lemma set_child_same node b c :
  children node b = Some c -> set_child node b c = node.
Proof.
  unfold children, set_child. destruct node as [c0 c1 e md s]; simpl.
  destruct (b =? 0); [by intros ->|]. destruct (b =? 1); [by intros ->|].
  discriminate.
Qed.

Lemma del_child_set_child node b c :
  children node b = None -> del_child (set_child node b c) b = node.
Proof.
  unfold children, set_child, del_child. destruct node as [c0 c1 e md s]; simpl.
  destruct (b =? 0); simpl; [by intros ->|].
  destruct (b =? 1); simpl; [by intros ->|done].
Qed.

Lemma set_child_del_child node b c :
  set_child (del_child node b) b c = set_child node b c.
Proof.
  unfold set_child, del_child. destruct (b =? 0) eqn:E0; simpl; [done|].
  destruct (b =? 1) eqn:E1; simpl; done.
Qed.

(** [Delete] after [Insert] along a path that held no registration gives
    the node back as it was: the pruning loop detaches exactly the nodes
    that [Insert] created. *)
Lemma delete_insert_path p node s md :
  Forall isbit p -> clean node -> alive_below node = true ->
  reg node p = None ->
  delete_path p (insert_path p node s md) = Some node.
Proof.
  intros Hp. revert node.
  induction Hp as [|b p Hb Hp IH]; intros node Hclean Halive Hreg.
  - simpl. rewrite reg_nil in Hreg. unfold entry in Hreg.
    destruct node as [c0 c1 e m t]; simpl in *.
    destruct e; [discriminate|]. destruct Hclean as (Hf & _).
    destruct (Hf eq_refl) as [-> ->]. reflexivity.
  - cbn [insert_path delete_path].
    rewrite children_set_child, decide_True by (exact Hb || reflexivity).
    cbn [mbind option_bind]. rewrite reg_cons in Hreg.
    destruct (children node b) as [c|] eqn:Hc; cbn [from_option id] in *.
    + rewrite IH; [|eapply clean_children; eauto
                   |eapply alive_alive_below, alive_below_children; eauto
                   |exact Hreg].
      cbn [mbind option_bind]. unfold reattach.
      rewrite (alive_not_dead c) by (eapply alive_below_children; eauto).
      by rewrite set_child_set_child, set_child_same.
    + rewrite IH; [|apply clean_newNode|reflexivity|apply reg_newNode].
      cbn [mbind option_bind]. unfold reattach.
      change (dead newNode) with true. cbn iota.
      by rewrite del_child_set_child.
Qed.

(** [Insert] after [Delete] of a registration, with the text and metadata
    it held, gives the node back as it was. *)
Lemma insert_delete_path p node node' s md :
  Forall isbit p -> clean node -> reg node p = Some (s, md) ->
  delete_path p node = Some node' ->
  insert_path p node' s md = node.
Proof.
  intros Hp. revert node node'.
  induction Hp as [|b p Hb Hp IH]; intros node node' Hclean Hreg; simpl.
  - rewrite reg_nil in Hreg. unfold entry in Hreg.
    destruct node as [c0 c1 e m t]; simpl in *.
    destruct e; [|discriminate]. injection Hreg as -> ->.
    by intros [= <-].
  - rewrite reg_cons in Hreg.
    destruct (children node b) as [c|] eqn:Hc; simpl in *; [|discriminate].
    destruct (delete_path p c) as [c'|] eqn:Hd; simpl; [|discriminate].
    intros [= <-].
    pose proof (clean_children _ _ _ Hclean Hc) as Hcc.
    pose proof (IH c c' Hcc Hreg Hd) as Hback.
    rewrite reattach_children, decide_True by (exact Hb || reflexivity).
    unfold reattach. destruct (dead c') eqn:Hdead; cbn [from_option id].
    + rewrite (dead_clean_newNode c' Hdead) in Hback
        by (eapply clean_delete_path; eauto).
      rewrite Hback, set_child_del_child. by apply set_child_same.
    + rewrite Hback, set_child_set_child. by apply set_child_same.
Qed.

End Clean.

(** On a CIDR that is not an IPv4-mapped IPv6 one, [Delete] is
    [delete_path] along the bits that [Insert] walks. *)
Lemma Delete_unmapped t c ip0 ipnet :
  ParseCIDR c = Some (ip0, ipnet) -> ~ mapped_cidr ipnet ->
  Delete t c
  = match delete_path (cidr_bits ipnet) (root t) with
    | Some r => Ok (mkIPTrie r)
    | None => Err CIDRNotFound
    end.
Proof.
  intros Hparse Hnm.
  pose proof (ParseCIDR_parsed _ _ _ Hparse) as Hp.
  destruct (parsed_unmapped _ Hp Hnm) as (Hb & _ & _ & Hle & Hdl).
  rewrite (Delete_unfold _ _ _ _ Hparse).
  - unfold delete_bits, cidr_bits. by rewrite Hdl.
  - rewrite Hdl, Hb, length_bits_of. exact Hle.
Qed.

Lemma Insert_Ok_unmapped t c md t' ip0 ipnet :
  ParseCIDR c = Some (ip0, ipnet) -> Insert t c md = Ok t' ->
  ~ mapped_cidr ipnet
  /\ t' = mkIPTrie (insert_path (cidr_bits ipnet) (root t) c md).
Proof.
  intros Hparse. pose proof (Insert_outcome t c md) as H.
  rewrite Hparse in H. destruct H as [[_ H] | [Hnm H]]; rewrite H.
  - discriminate.
  - intros [= <-]. done.
Qed.

(** Every registration of a reachable trie holds a text that parses, is
    not an IPv4-mapped IPv6 CIDR, and has the bits of the path it sits
    at. *)
Lemma reachable_registered t :
  reachable t ->
  forall p c md, reg (root t) p = Some (c, md) ->
    exists ip0 ipnet,
      ParseCIDR c = Some (ip0, ipnet) /\ ~ mapped_cidr ipnet
      /\ cidr_bits ipnet = p.
Proof.
  induction 1 as [|t o t' _ IH Hrun]; intros p c md Hreg.
  - simpl in Hreg. rewrite reg_newNode in Hreg. discriminate.
  - destruct o as [c0 md0 | ip | ip | c0]; simpl in Hrun.
    + destruct (Insert t c0 md0) as [t1| |] eqn:Hins; [| |discriminate].
      * injection Hrun as <-.
        apply Insert_Ok_effect in Hins as (ip0 & ipnet & Hparse & Hw & Hr).
        rewrite Hr in Hreg. case_decide as Hp.
        -- injection Hreg as <- <-. exists ip0, ipnet.
           split; [exact Hparse|]. split; [|by symmetry].
           by apply walkable_iff_unmapped; [eapply ParseCIDR_parsed|].
        -- eapply IH; eauto.
      * injection Hrun as <-. eapply IH; eauto.
    + destruct (Find t ip); [| |discriminate];
        injection Hrun as <-; eapply IH; eauto.
    + destruct (FindAll t ip); [| |discriminate];
        injection Hrun as <-; eapply IH; eauto.
    + destruct (Delete t c0) as [t1| |] eqn:Hd; [| |discriminate].
      * injection Hrun as <-.
        apply Delete_Ok_effect in Hd as (p0 & _ & Hgone & Hother & _).
        destruct (decide (p = p0)) as [->|Hne]; [congruence|].
        rewrite Hother in Hreg by exact Hne. eapply IH; eauto.
      * injection Hrun as <-. eapply IH; eauto.
Qed.

(** X8.  In every trie that a sequence of completed calls leaves: [Insert] of a
    CIDR whose prefix bits hold no registration, followed by [Delete] of the
    same text, gives back the trie as it was, node for node. *)
Theorem Insert_then_Delete_restores (t t1 : IPTrie) (c : string)
        (md : gmap string Value) (ip0 : list Z) (ipnet : IPNet) :
  reachable t ->
  ParseCIDR c = Some (ip0, ipnet) ->
  reg (root t) (cidr_bits ipnet) = None ->
  Insert t c md = Ok t1 ->
  Delete t1 c = Ok t.
Proof.
  intros Hreach Hparse Hreg Hins.
  destruct (Insert_Ok_unmapped _ _ _ _ _ _ Hparse Hins) as [Hnm ->].
  rewrite (Delete_unmapped _ _ _ _ Hparse Hnm). cbn [root].
  rewrite delete_insert_path.
  - by destruct t.
  - apply Forall_isbit_cidr_bits.
  - by apply reachable_clean.
  - by apply reachable_alive_below.
  - exact Hreg.
Qed.

Lemma Insert_then_Delete_restores_witness :
  reachable only_ten_8 /\ Delete nested ten_1_16 = Ok only_ten_8.
Proof.
  assert (reachable only_ten_8) as Hreach.
  { apply (reachable_after [OpInsert ten_8 md_wide]). vm_compute. reflexivity. }
  split; [exact Hreach|].
  apply (Insert_then_Delete_restores only_ten_8 nested ten_1_16 md_narrow
           (v4InV6Prefix ++ [10; 1; 0; 0])
           (mkIPNet [10; 1; 0; 0] [255; 255; 0; 0]) Hreach).
  - reflexivity.
  - vm_compute. reflexivity.
  - vm_compute. reflexivity.
Defined.

(** X9.  In every trie that a sequence of completed calls leaves: [Delete] of a
    registered CIDR, followed by [Insert] of the text and metadata that the
    registration held, gives back the trie as it was, node for node. *)
Theorem Delete_then_Insert_restores (t t1 : IPTrie) (c : string)
        (md : gmap string Value) (ip0 : list Z) (ipnet : IPNet) :
  reachable t ->
  ParseCIDR c = Some (ip0, ipnet) ->
  reg (root t) (cidr_bits ipnet) = Some (c, md) ->
  Delete t c = Ok t1 ->
  Insert t1 c md = Ok t.
Proof.
  intros Hreach Hparse Hreg Hdel.
  destruct (reachable_registered t Hreach _ _ _ Hreg)
    as (ip0' & ipnet' & Hparse' & Hnm & _).
  rewrite Hparse in Hparse'. injection Hparse' as <- <-.
  rewrite (Delete_unmapped _ _ _ _ Hparse Hnm) in Hdel.
  destruct (delete_path (cidr_bits ipnet) (root t)) as [r|] eqn:Hd;
    [|discriminate].
  injection Hdel as <-.
  pose proof (Insert_outcome (mkIPTrie r) c md) as Hins.
  rewrite Hparse in Hins. destruct Hins as [[Hm _] | [_ ->]]; [contradiction|].
  cbn [root].
  rewrite (insert_delete_path _ (root t) r c md); [by destruct t|..].
  - apply Forall_isbit_cidr_bits.
  - by apply reachable_clean.
  - exact Hreg.
  - exact Hd.
Qed.

Lemma Delete_then_Insert_restores_witness :
  reachable nested /\ Insert nested_deleted ten_1_16 md_narrow = Ok nested.
Proof.
  assert (reachable nested) as Hreach.
  { apply (reachable_after [OpInsert ten_8 md_wide; OpInsert ten_1_16 md_narrow]).
    vm_compute. reflexivity. }
  split; [exact Hreach|].
  apply (Delete_then_Insert_restores nested nested_deleted ten_1_16 md_narrow
           (v4InV6Prefix ++ [10; 1; 0; 0])
           (mkIPNet [10; 1; 0; 0] [255; 255; 0; 0]) Hreach).
  - reflexivity.
  - vm_compute. reflexivity.
  - vm_compute. reflexivity.
Defined.

(** X10.  In every trie that a sequence of completed calls leaves, a node that
    is not a registered prefix has the empty CIDR text and the empty
    metadata map: [Delete] leaves no stale text or metadata behind. *)
Theorem unmarked_nodes_are_empty (t : IPTrie) :
  reachable t ->
  forall p nd, descend (root t) p = Some nd -> isEnd nd = false ->
               cidr nd = "" /\ metadata nd = ∅.
Proof.
  intros Hreach p nd Hd He.
  pose proof (clean_descend _ _ _ (reachable_clean _ Hreach) Hd) as Hc.
  apply clean_unfold in Hc as (Hf & _). by destruct (Hf He).
Qed.

Lemma unmarked_nodes_are_empty_witness :
  reachable nested_deleted
  /\ forall p nd, descend (root nested_deleted) p = Some nd ->
                  isEnd nd = false -> cidr nd = "" /\ metadata nd = ∅.
Proof.
  assert (reachable nested_deleted) as Hreach.
  { apply (reachable_after [OpInsert ten_8 md_wide; OpInsert ten_1_16 md_narrow;
                            OpDelete ten_1_16]).
    vm_compute. reflexivity. }
  split; [exact Hreach|].
  apply (unmarked_nodes_are_empty nested_deleted Hreach).
Defined.

(** ** Lookups against [IPNet.Contains] *)

Section MaskedBytes.

Lemma land_agree (a b m : Z) :
  (forall k, 0 <= k -> Z.testbit m k = true -> Z.testbit a k = Z.testbit b k) ->
  Z.land a m = Z.land b m.
Proof.
  intros H. apply Z.bits_inj'. intros k Hk. rewrite !Z.land_spec.
  destruct (Z.testbit m k) eqn:Hm; [|by rewrite !andb_false_r].
  by rewrite (H k Hk Hm).
Qed.

Lemma bit_eq_testbit (a b k : Z) :
  0 <= k -> Z.land (Z.shiftr a k) 1 = Z.land (Z.shiftr b k) 1 ->
  Z.testbit a k = Z.testbit b k.
Proof.
  intros Hk. rewrite !bit_b2z by exact Hk. apply Z.b2z_inj.
Qed.

(** The first [n] entries of [byte_bits] are the bits 7 down to [8 - n]. *)
Lemma take_byte_bits_inv (a b : Z) (n : nat) (k : Z) :
  take n (byte_bits a) = take n (byte_bits b) ->
  0 <= k < 8 -> 8 - Z.of_nat n <= k ->
  Z.testbit a k = Z.testbit b k.
Proof.
  intros H Hk Hn. apply bit_eq_testbit; [lia|].
  apply (f_equal (fun l => l !! Z.to_nat (7 - k))) in H.
  rewrite !lookup_take_lt in H by lia.
  assert (k = 0 \/ k = 1 \/ k = 2 \/ k = 3 \/ k = 4 \/ k = 5 \/ k = 6 \/ k = 7)
    as Hcases by lia.
  destruct Hcases as [->|[->|[->|[->|[->|[->|[->| ->]]]]]]];
    by injection H.
Qed.

Lemma testbit_low_byte (x k : Z) :
  0 <= k -> Z.testbit (Z.land x 255) k = true -> k < 8.
Proof.
  intros Hk H. rewrite Z.land_spec in H. apply andb_true_iff in H as [_ H].
  destruct (decide (k < 8)) as [|Hge]; [assumption|exfalso].
  change 255 with (Z.ones 8) in H. rewrite Z.ones_spec_high in H by lia.
  discriminate.
Qed.

(** The byte that [CIDRMask] writes for [n] remaining ones keeps the bits
    7 down to [8 - n] and no other. *)
Lemma partial_mask_testbit (n k : Z) :
  0 <= n < 8 -> 0 <= k ->
  Z.testbit (Z.land (Z.lnot (Z.shiftr 255 n)) 255) k = true ->
  8 - n <= k < 8.
Proof.
  intros Hn Hk H. pose proof (testbit_low_byte _ _ Hk H) as Hlt.
  assert (n = 0 \/ n = 1 \/ n = 2 \/ n = 3 \/ n = 4 \/ n = 5 \/ n = 6 \/ n = 7)
    as Hn' by lia.
  assert (k = 0 \/ k = 1 \/ k = 2 \/ k = 3 \/ k = 4 \/ k = 5 \/ k = 6 \/ k = 7)
    as Hk' by lia.
  destruct Hn' as [->|[->|[->|[->|[->|[->|[->| ->]]]]]]];
    destruct Hk' as [->|[->|[->|[->|[->|[->|[->| ->]]]]]]];
    vm_compute in H; first [discriminate H | lia].
Qed.

(** Two byte slices that agree in their first [n] bits agree under a mask
    of [n] ones. *)
Lemma prefix_masked (l : nat) (x y : list Z) (n : Z) :
  length x = l -> length y = l -> 0 <= n ->
  take (Z.to_nat n) (bits_of x) = take (Z.to_nat n) (bits_of y) ->
  zip_with Z.land x (mask_bytes l n) = zip_with Z.land y (mask_bytes l n).
Proof.
  revert x y n. induction l as [|l IH]; intros x y n Hx Hy Hn H.
  - destruct x, y; try discriminate. reflexivity.
  - destruct x as [|a x], y as [|b y]; try discriminate.
    injection Hx as Hx. injection Hy as Hy.
    rewrite !bits_of_cons in H. cbn [mask_bytes].
    destruct (8 <=? n) eqn:Hge.
    + apply Z.leb_le in Hge.
      rewrite !take_app_ge in H by (rewrite length_byte_bits; lia).
      apply app_inj_1 in H as [Hab H]; [|by rewrite !length_byte_bits].
      rewrite !length_byte_bits in H.
      replace (Z.to_nat n - 8)%nat with (Z.to_nat (n - 8)) in H by lia.
      cbn [zip_with]. f_equal; [|apply IH; (assumption || lia)].
      apply land_agree. intros k Hk Hm.
      apply (take_byte_bits_inv a b 8 k).
      * by rewrite !firstn_all2 by (rewrite length_byte_bits; lia).
      * change 255 with (Z.land (-1) 255) in Hm.
        pose proof (testbit_low_byte _ _ Hk Hm). lia.
      * lia.
    + apply Z.leb_gt in Hge.
      rewrite !take_app_le in H by (rewrite length_byte_bits; lia).
      cbn [zip_with]. f_equal.
      * apply land_agree. intros k Hk Hm.
        pose proof (partial_mask_testbit n k ltac:(lia) Hk Hm).
        apply (take_byte_bits_inv a b (Z.to_nat n) k H); lia.
      * apply IH; try (assumption || lia). reflexivity.
Qed.

End MaskedBytes.

(** [IPNet.Contains] accepts every address of the CIDR's width whose bytes
    agree with the network number under the mask. *)
Lemma Contains_same_width_conv (nn m ip : list Z) :
  length nn = 4%nat \/ (length nn = 16%nat /\ To4 nn = None) ->
  length m = length nn -> length ip = 16%nat ->
  length (ipToBytes ip) = length nn ->
  zip_with Z.land nn m = zip_with Z.land (ipToBytes ip) m ->
  Contains (mkIPNet nn m) ip = true.
Proof.
  intros Hnn Hm Hip Hlen Heq.
  unfold Contains, networkNumberAndMask, IPv4len, IPv6len.
  cbn [IP IPMask].
  destruct Hnn as [H4 | [H16 Hnone]].
  - rewrite (To4_length_4 _ H4). simpl. rewrite Hm, H4. simpl.
    destruct (To4 ip) as [x|] eqn:Hx; simpl.
    + rewrite (ipToBytes_mapped _ _ Hip Hx) in Hlen, Heq.
      rewrite Hlen, H4. simpl. by apply bool_decide_eq_true_2.
    + rewrite (ipToBytes_v6 _ Hip Hx) in Hlen. congruence.
  - rewrite Hnone, H16. simpl. rewrite Hm, H16. simpl.
    destruct (To4 ip) as [x|] eqn:Hx; simpl.
    + rewrite (ipToBytes_mapped _ _ Hip Hx) in Hlen.
      apply To4_Some_16 in Hx as [Hx _]; [|exact Hip]. congruence.
    + rewrite (ipToBytes_v6 _ Hip Hx) in Heq.
      rewrite Hip, H16. simpl. by apply bool_decide_eq_true_2.
Qed.

Lemma unmapped_width (ipnet : IPNet) :
  parsed_cidr ipnet -> ~ mapped_cidr ipnet ->
  length (IP ipnet) = 4%nat
  \/ (length (IP ipnet) = 16%nat /\ To4 (IP ipnet) = None).
Proof.
  intros Hp Hnm. unfold mapped_cidr in Hnm.
  destruct Hp as [a b c d n Hn | l n Hl Hn]; cbn [IP IPMask] in *.
  - left. rewrite length_zip_with, length_mask_bytes. reflexivity.
  - right.
    assert (length (zip_with Z.land l (mask_bytes 16 n)) = 16%nat)
      as H16 by (rewrite length_zip_with, Hl, length_mask_bytes; reflexivity).
    split; [exact H16|].
    destruct (To4 _) eqn:E; [|reflexivity].
    exfalso. apply Hnm. split; [exact H16 | eauto].
Qed.

(** For an address of the CIDR's width, [IPNet.Contains] holds exactly
    when the address starts with the prefix bits. *)
Lemma Contains_iff_prefix (ipnet : IPNet) (ip : list Z) :
  parsed_cidr ipnet -> ~ mapped_cidr ipnet -> length ip = 16%nat ->
  length (ipToBytes ip) = length (IP ipnet) ->
  Contains ipnet ip = true <-> cidr_bits ipnet `prefix_of` addr_bits ip.
Proof.
  intros Hp Hnm Hip Hlen. split; [by apply Contains_prefix|].
  intros Hpre.
  destruct (parsed_unmapped _ Hp Hnm) as (Hb & Hlm & Hmask & Hle & _).
  pose proof (unmapped_width _ Hp Hnm) as Hw.
  destruct ipnet as [nn m]. cbn [IP IPMask] in *.
  apply Contains_same_width_conv; try (assumption || by symmetry).
  rewrite Hmask. apply prefix_masked; [by symmetry | congruence | lia |].
  rewrite Nat2Z.id.
  unfold cidr_bits, addr_bits in Hpre. cbn [IP] in Hpre. rewrite Hb in Hpre.
  destruct Hpre as [k Hk]. rewrite Hk. rewrite take_app_le, take_take.
  - f_equal. lia.
  - rewrite length_take, length_bits_of. lia.
Qed.

(** X11.  In a trie that holds one CIDR, [Find] of an address of the CIDR's own
    width agrees with [IPNet.Contains]: it returns the CIDR's text and
    metadata when the address is inside, the not-found error when it is
    outside.  (The width is that of [ipToBytes]: four bytes for dotted
    quads and IPv4-mapped addresses, sixteen otherwise.) *)
Theorem Find_agrees_with_Contains (c : string) (md : gmap string Value)
        (ip0 : list Z) (ipnet : IPNet) (a : string) (ip : list Z)
        (t : IPTrie) :
  ParseCIDR c = Some (ip0, ipnet) ->
  ParseIP a = Some ip ->
  length (ipToBytes ip) = length (IP ipnet) ->
  Insert NewIPTrie c md = Ok t ->
  (Contains ipnet ip = true /\ Find t a = Ok (c, md))
  \/ (Contains ipnet ip = false /\ Find t a = Err NoMatch).
Proof.
  intros Hparse Ha Hlen Hins.
  destruct (Insert_Ok_unmapped _ _ _ _ _ _ Hparse Hins) as [Hnm ->].
  pose proof (ParseCIDR_parsed _ _ _ Hparse) as Hp.
  pose proof (ParseIP_length _ _ Ha) as Hip.
  pose proof (Contains_iff_prefix ipnet ip Hp Hnm Hip Hlen) as Hiff.
  assert (forall q, reg (root (mkIPTrie (insert_path (cidr_bits ipnet)
                                           (root NewIPTrie) c md))) q
                    = if decide (q = cidr_bits ipnet) then Some (c, md)
                      else None) as Hreg.
  { intros q. cbn [root]. rewrite reg_insert_path by apply Forall_isbit_cidr_bits.
    case_decide; [reflexivity | apply reg_newNode]. }
  destruct (Contains ipnet ip) eqn:Hc.
  - left. split; [reflexivity|].
    apply (Find_single (cidr_bits ipnet) c md _ a ip Hreg Ha). by apply Hiff.
  - right. split; [reflexivity|].
    rewrite Find_unfold, Ha, matches_eq_nil; [reflexivity|].
    intros q Hq. rewrite Hreg. case_decide as Hqp; [|reflexivity].
    subst q. apply Hiff in Hq. discriminate.
Qed.

Lemma Find_agrees_with_Contains_witness :
  Contains (mkIPNet [192; 168; 1; 0] [255; 255; 255; 0])
           (v4InV6Prefix ++ [192; 168; 2; 1]) = false
  /\ ((Contains (mkIPNet [192; 168; 1; 0] [255; 255; 255; 0])
                (v4InV6Prefix ++ [192; 168; 2; 1]) = true
       /\ Find (trie_of [OpInsert "192.168.1.0/24" md_narrow]) "192.168.2.1"
          = Ok ("192.168.1.0/24", md_narrow))
      \/ (Contains (mkIPNet [192; 168; 1; 0] [255; 255; 255; 0])
                   (v4InV6Prefix ++ [192; 168; 2; 1]) = false
          /\ Find (trie_of [OpInsert "192.168.1.0/24" md_narrow]) "192.168.2.1"
             = Err NoMatch)).
Proof.
  split; [vm_compute; reflexivity|].
  apply (Find_agrees_with_Contains "192.168.1.0/24" md_narrow
           (v4InV6Prefix ++ [192; 168; 1; 0])
           (mkIPNet [192; 168; 1; 0] [255; 255; 255; 0])
           "192.168.2.1" (v4InV6Prefix ++ [192; 168; 2; 1])).
  - reflexivity.
  - reflexivity.
  - reflexivity.
  - vm_compute. reflexivity.
Defined.

(** X12.  In every trie that a sequence of completed calls leaves, every entry
    that [FindAll] lists and the entry that [Find] returns hold a CIDR
    text that parses and whose prefix bits start the address's bits; when
    the address has the CIDR's width, [IPNet.Contains] puts it inside. *)
Theorem lookups_report_covering_cidrs (t : IPTrie) :
  reachable t ->
  forall s c md,
    ((exists l, FindAll t s = Ok l /\ (c, md) ∈ l) \/ Find t s = Ok (c, md)) ->
    exists ip0 ipnet ip,
      ParseCIDR c = Some (ip0, ipnet) /\ ParseIP s = Some ip
      /\ cidr_bits ipnet `prefix_of` addr_bits ip
      /\ (length (ipToBytes ip) = length (IP ipnet) ->
          Contains ipnet ip = true).
Proof.
  intros Hreach s c md H.
  assert (exists ip, ParseIP s = Some ip
                     /\ (c, md) ∈ matches (root t) (addr_bits ip))
    as (ip & Hparse & Hin).
  { destruct H as [(l & Hall & Hin) | Hfind].
    - rewrite FindAll_unfold in Hall.
      destruct (ParseIP s) as [ip|]; [|discriminate].
      injection Hall as <-. eauto.
    - rewrite Find_unfold in Hfind.
      destruct (ParseIP s) as [ip|]; [|discriminate].
      destruct (last _) as [e|] eqn:Hlast; [|discriminate].
      injection Hfind as ->. exists ip. split; [reflexivity|].
      by apply last_Some_elem_of in Hlast. }
  apply list_elem_of_omap in Hin as (q & Hq & Hreg).
  apply elem_of_prefixes in Hq.
  destruct (reachable_registered t Hreach _ _ _ Hreg)
    as (ip0 & ipnet & Hcidr & Hnm & <-).
  exists ip0, ipnet, ip. split; [exact Hcidr|]. split; [exact Hparse|].
  split; [exact Hq|]. intros Hlen.
  apply Contains_iff_prefix; try assumption.
  - eapply ParseCIDR_parsed; eauto.
  - eapply ParseIP_length; eauto.
Qed.

Lemma lookups_report_covering_cidrs_witness :
  reachable nested
  /\ forall s c md,
      ((exists l, FindAll nested s = Ok l /\ (c, md) ∈ l)
       \/ Find nested s = Ok (c, md)) ->
      exists ip0 ipnet ip,
        ParseCIDR c = Some (ip0, ipnet) /\ ParseIP s = Some ip
        /\ cidr_bits ipnet `prefix_of` addr_bits ip
        /\ (length (ipToBytes ip) = length (IP ipnet) ->
            Contains ipnet ip = true).
Proof.
  assert (reachable nested) as Hreach.
  { apply (reachable_after [OpInsert ten_8 md_wide; OpInsert ten_1_16 md_narrow]).
    vm_compute. reflexivity. }
  split; [exact Hreach|].
  apply (lookups_report_covering_cidrs nested Hreach).
Defined.

(** ** [Delete] on an IPv4-mapped IPv6 CIDR *)

(** X13.  For a CIDR whose 16-byte network number is IPv4-mapped, [ipToBytes]
    leaves the 32 bits of the embedded IPv4 address.  With a prefix length
    of 128 the branch [ones == total] makes [Delete] walk exactly these 32
    bits: it removes the registration that sits there (the one of the IPv4
    host route [a.b.c.d/32]) or returns the not-found error.  With a
    shorter prefix length [Delete] never succeeds. *)
Theorem Delete_mapped_cidr (t : IPTrie) (c : string) (ip0 : list Z)
        (ipnet : IPNet) :
  ParseCIDR c = Some (ip0, ipnet) ->
  mapped_cidr ipnet ->
  length (bits_of (ipToBytes (IP ipnet))) = 32%nat
  /\ (prefix_len ipnet = 128%nat ->
      (Delete t c = Err CIDRNotFound
       <-> reg (root t) (bits_of (ipToBytes (IP ipnet))) = None)
      /\ (is_Some (reg (root t) (bits_of (ipToBytes (IP ipnet)))) ->
          exists t',
            Delete t c = Ok t'
            /\ forall q, reg (root t') q
                         = if decide (q = bits_of (ipToBytes (IP ipnet)))
                           then None else reg (root t) q))
  /\ (prefix_len ipnet <> 128%nat -> forall t', Delete t c <> Ok t').
Proof.
  intros Hparse [H16 [x Hx]].
  pose proof (ParseCIDR_parsed _ _ _ Hparse) as Hp.
  pose proof (To4_Some_16 _ _ H16 Hx) as [Hx4 _].
  assert (length (bits_of (ipToBytes (IP ipnet))) = 32%nat) as H32
    by (rewrite (ipToBytes_mapped _ _ H16 Hx), length_bits_of, Hx4; reflexivity).
  assert (exists n, 96 <= n <= 128 /\ Size (IPMask ipnet) = (n, 128))
    as (n & Hn & Hsize).
  { destruct Hp as [a b c0 d n Hn | l n Hl Hn]; cbn [IP IPMask] in *.
    - rewrite length_zip_with, length_mask_bytes in H16. discriminate.
    - exists n. split; [|by apply Size_mask_bytes_16].
      pose proof (mapped_at_least_96 l n Hl Hn ltac:(eauto)). lia. }
  assert (prefix_len ipnet = Z.to_nat n) as Hpl
    by (unfold prefix_len; by rewrite Hsize).
  assert (delete_len ipnet = if n =? 128 then 32%nat else Z.to_nat n) as Hdl.
  { unfold delete_len. rewrite Hsize, (ipToBytes_mapped _ _ H16 Hx), Hx4.
    destruct (n =? 128); reflexivity. }
  split; [exact H32|]. split.
  - intros H128. assert (n = 128) as -> by lia. simpl in Hdl.
    assert (delete_bits ipnet = bits_of (ipToBytes (IP ipnet))) as Hbits.
    { unfold delete_bits. rewrite Hdl. apply take_ge. lia. }
    assert (Delete t c
            = match delete_path (bits_of (ipToBytes (IP ipnet))) (root t) with
              | Some r => Ok (mkIPTrie r)
              | None => Err CIDRNotFound
              end) as Hdel.
    { rewrite (Delete_unfold _ _ _ _ Hparse), Hbits; [reflexivity|]. lia. }
    rewrite Hdel. split.
    + rewrite <- delete_path_None. destruct (delete_path _ _); split; congruence.
    + intros Hsome.
      destruct (delete_path _ (root t)) as [r|] eqn:Hd.
      * exists (mkIPTrie r). split; [reflexivity|]. intros q.
        apply (reg_delete_path _ _ _ _ (Forall_isbit_bits_of _) Hd).
      * apply delete_path_None in Hd. rewrite Hd in Hsome. by destruct Hsome.
  - intros Hne t' Hdel.
    apply Delete_Ok_inv in Hdel as (ip0' & ipnet' & Hp' & Hlen & _).
    rewrite Hparse in Hp'. injection Hp' as <- <-.
    rewrite Hdl, H32 in Hlen.
    destruct (n =? 128) eqn:E; [apply Z.eqb_eq in E|]; lia.
Qed.

Lemma Delete_mapped_cidr_witness :
  Delete (trie_of [OpInsert "1.2.3.4/32" md_wide]) "::ffff:1.2.3.4/128"
  = Ok NewIPTrie
  /\ exists t',
      Delete (trie_of [OpInsert "1.2.3.4/32" md_wide]) "::ffff:1.2.3.4/128"
      = Ok t'
      /\ forall q,
          reg (root t') q
          = if decide
                 (q = bits_of
                        (ipToBytes
                           (IP (mkIPNet (v4InV6Prefix ++ [1; 2; 3; 4])
                                        (replicate 16 255)))))
            then None
            else reg (root (trie_of [OpInsert "1.2.3.4/32" md_wide])) q.
Proof.
  split; [vm_compute; reflexivity|].
  destruct (Delete_mapped_cidr (trie_of [OpInsert "1.2.3.4/32" md_wide])
              "::ffff:1.2.3.4/128" (v4InV6Prefix ++ [1; 2; 3; 4])
              (mkIPNet (v4InV6Prefix ++ [1; 2; 3; 4]) (replicate 16 255)))
    as (_ & H128 & _).
  - reflexivity.
  - split; [reflexivity|]. vm_compute. eauto.
  - apply H128.
    + vm_compute. reflexivity.
    + vm_compute. eauto.
Defined.

(** ** How many nodes the calls create *)

Section NodeCount.

Implicit Types (node c : Node) (b : Z) (p : list Z).

Lemma node_count_unfold node :
  node_count node
  = S (from_option node_count 0%nat (child0 node)
       + from_option node_count 0%nat (child1 node)).
Proof. destruct node as [[?|] [?|] ? ? ?]; reflexivity. Qed.

Lemma node_count_set_child node b c :
  isbit b ->
  (node_count (set_child node b c)
   + from_option node_count 0 (children node b)
   = node_count node + node_count c)%nat.
Proof.
  intros [-> | ->]; rewrite (node_count_unfold node),
    (node_count_unfold (set_child _ _ _)); unfold set_child, children; simpl;
    lia.
Qed.

Lemma node_count_del_child node b :
  isbit b ->
  (node_count (del_child node b) + from_option node_count 0 (children node b)
   = node_count node)%nat.
Proof.
  intros [-> | ->]; rewrite (node_count_unfold node),
    (node_count_unfold (del_child _ _)); unfold del_child, children; simpl;
    lia.
Qed.

Lemma node_count_mark node s md : node_count (mark node s md) = node_count node.
Proof. by rewrite !node_count_unfold. Qed.

Lemma node_count_unmark node : node_count (unmark node) = node_count node.
Proof. by rewrite !node_count_unfold. Qed.

(** [Insert] creates at most one node per bit of the path, and none along
    a path that exists. *)
Lemma node_count_insert_path p node s md :
  Forall isbit p ->
  (node_count node <= node_count (insert_path p node s md)
                   <= node_count node + length p)%nat
  /\ (is_Some (descend node p) ->
      node_count (insert_path p node s md) = node_count node).
Proof.
  intros Hp. revert node. induction Hp as [|b p Hb Hp IH]; intros node.
  - cbn [insert_path]. rewrite node_count_mark. simpl. split; [lia|done].
  - cbn [insert_path length].
    pose proof (node_count_set_child node b
                  (insert_path p (default newNode (children node b)) s md) Hb)
      as Hset.
    destruct (IH (default newNode (children node b))) as [Hle Hex].
    destruct (children node b) as [c|] eqn:Hc; simpl in *.
    + split; [lia|]. intros Hsome. rewrite Hc in Hsome. simpl in Hsome.
      rewrite Hex in Hset by exact Hsome. lia.
    + split; [lia|]. intros [? Hsome]. rewrite Hc in Hsome. discriminate.
Qed.

(** [Delete] creates no node. *)
Lemma node_count_delete_path p node node' :
  Forall isbit p -> delete_path p node = Some node' ->
  (node_count node' <= node_count node)%nat.
Proof.
  intros Hp. revert node node'.
  induction Hp as [|b p Hb Hp IH]; intros node node'; simpl.
  - destruct (isEnd node); [|discriminate]. intros [= <-].
    by rewrite node_count_unmark.
  - destruct (children node b) as [c|] eqn:Hc; simpl; [|discriminate].
    destruct (delete_path p c) as [c'|] eqn:Hd; simpl; [|discriminate].
    intros [= <-]. specialize (IH _ _ Hd). unfold reattach.
    destruct (dead c').
    + pose proof (node_count_del_child node b Hb). lia.
    + pose proof (node_count_set_child node b c' Hb) as Hset.
      rewrite Hc in Hset. simpl in Hset. lia.
Qed.

End NodeCount.

(** X14.  A successful [Insert] of a CIDR with [ones] prefix bits adds at most
    [ones] nodes to the trie, and none when the path of the prefix already
    exists; it removes none. *)
Theorem Insert_adds_at_most_ones_nodes (t t' : IPTrie) (c : string)
        (md : gmap string Value) (ip0 : list Z) (ipnet : IPNet) :
  ParseCIDR c = Some (ip0, ipnet) ->
  Insert t c md = Ok t' ->
  (node_count (root t) <= node_count (root t')
                       <= node_count (root t) + prefix_len ipnet)%nat
  /\ (is_Some (descend (root t) (cidr_bits ipnet)) ->
      node_count (root t') = node_count (root t)).
Proof.
  intros Hparse Hins.
  destruct (Insert_Ok_unmapped _ _ _ _ _ _ Hparse Hins) as [_ ->]. cbn [root].
  destruct (node_count_insert_path (cidr_bits ipnet) (root t) c md
              (Forall_isbit_cidr_bits ipnet)) as [Hle Hex].
  split; [|exact Hex].
  assert (length (cidr_bits ipnet) <= prefix_len ipnet)%nat
    by (unfold cidr_bits; rewrite length_take; lia).
  lia.
Qed.

Lemma Insert_adds_at_most_ones_nodes_witness :
  (node_count (root only_ten_8) <= node_count (root nested)
                                <= node_count (root only_ten_8) + 16)%nat
  /\ node_count (root only_ten_8) = 9%nat /\ node_count (root nested) = 17%nat.
Proof.
  split; [|split; vm_compute; reflexivity].
  apply (Insert_adds_at_most_ones_nodes only_ten_8 nested ten_1_16 md_narrow
           (v4InV6Prefix ++ [10; 1; 0; 0])
           (mkIPNet [10; 1; 0; 0] [255; 255; 0; 0])).
  - reflexivity.
  - vm_compute. reflexivity.
Defined.

(** X15.  A successful [Delete] never adds a node: the trie afterwards
    has at most as many nodes as before. *)
Theorem Delete_adds_no_node (t t' : IPTrie) (c : string) :
  Delete t c = Ok t' -> (node_count (root t') <= node_count (root t))%nat.
Proof.
  intros Hd. apply Delete_Ok_inv in Hd as (ip0 & ipnet & _ & _ & Hd).
  eapply node_count_delete_path; [apply Forall_isbit_delete_bits | exact Hd].
Qed.

Lemma Delete_adds_no_node_witness :
  (node_count (root nested_deleted) <= node_count (root nested))%nat
  /\ node_count (root nested_deleted) = 9%nat.
Proof.
  split; [|vm_compute; reflexivity].
  apply (Delete_adds_no_node nested nested_deleted ten_1_16).
  vm_compute. reflexivity.
Defined.

(** ** Every node lies on the path of a registered prefix *)

Lemma alive_has_registration (n : nat) (node : Node) :
  (node_count node <= n)%nat -> alive node = true ->
  exists r, is_Some (reg node r).
Proof.
  revert node. induction n as [|n IH]; intros node Hn Halive.
  - rewrite node_count_unfold in Hn. lia.
  - pose proof (alive_not_dead _ Halive) as Hdead.
    pose proof (alive_alive_below _ Halive) as Hbelow.
    destruct (isEnd node) eqn:He.
    { exists []. rewrite reg_nil. unfold entry. rewrite He. eauto. }
    unfold dead in Hdead. rewrite He in Hdead. simpl in Hdead.
    rewrite andb_true_r in Hdead. apply Z.eqb_neq in Hdead.
    rewrite node_count_unfold in Hn.
    unfold alive_below in Hbelow. apply andb_true_iff in Hbelow as [H0 H1].
    unfold len_children in Hdead.
    destruct (child0 node) as [c|] eqn:Hc0; simpl in *.
    + destruct (IH c ltac:(lia) H0) as [r Hr].
      exists (0 :: r). rewrite reg_cons. unfold children. simpl.
      by rewrite Hc0.
    + destruct (child1 node) as [c|] eqn:Hc1; simpl in *; [|lia].
      destruct (IH c ltac:(lia) H1) as [r Hr].
      exists (1 :: r). rewrite reg_cons. unfold children. simpl.
      by rewrite Hc1.
Qed.

(** X16.  In every trie that a sequence of completed calls leaves, every node
    other than the root lies on the path of a registered prefix, no
    registered path is longer than 128 bits, and so no node is deeper than
    128 levels. *)
Theorem nodes_lie_on_registered_paths (t : IPTrie) :
  reachable t ->
  (forall r, is_Some (reg (root t) r) -> (length r <= 128)%nat)
  /\ forall p nd, p <> [] -> descend (root t) p = Some nd ->
       (length p <= 128)%nat
       /\ exists r, p `prefix_of` r /\ is_Some (reg (root t) r).
Proof.
  intros Hreach.
  assert (forall r, is_Some (reg (root t) r) -> (length r <= 128)%nat) as Hdepth.
  { intros r [[c md] Hr].
    destruct (reachable_registered t Hreach _ _ _ Hr)
      as (ip0 & ipnet & Hparse & Hnm & <-).
    pose proof (ParseCIDR_parsed _ _ _ Hparse) as Hp.
    destruct (parsed_unmapped _ Hp Hnm) as (Hb & _ & _ & _ & _).
    unfold cidr_bits. rewrite length_take, Hb, length_bits_of.
    destruct (unmapped_width _ Hp Hnm) as [-> | [-> _]]; lia. }
  split; [exact Hdepth|].
  intros p nd Hp Hd.
  pose proof (alive_below_descend _ _ _ (reachable_alive_below _ Hreach) Hp Hd)
    as Halive.
  destruct (alive_has_registration _ nd (Nat.le_refl _) Halive) as [r' Hr'].
  assert (is_Some (reg (root t) (p ++ r'))) as Hr.
  { unfold reg in *. rewrite descend_app, Hd. exact Hr'. }
  split.
  - specialize (Hdepth _ Hr). rewrite length_app in Hdepth. lia.
  - exists (p ++ r'). split; [by apply prefix_app_r | exact Hr].
Qed.

Lemma nodes_lie_on_registered_paths_witness :
  reachable nested_deleted
  /\ (forall r, is_Some (reg (root nested_deleted) r) -> (length r <= 128)%nat)
  /\ forall p nd, p <> [] -> descend (root nested_deleted) p = Some nd ->
       (length p <= 128)%nat
       /\ exists r, p `prefix_of` r /\ is_Some (reg (root nested_deleted) r).
Proof.
  assert (reachable nested_deleted) as Hreach.
  { apply (reachable_after [OpInsert ten_8 md_wide; OpInsert ten_1_16 md_narrow;
                            OpDelete ten_1_16]).
    vm_compute. reflexivity. }
  split; [exact Hreach|].
  apply (nodes_lie_on_registered_paths nested_deleted Hreach).
Defined.
